(** * PolyFit: the lp_solve back end of [LinearProgramSolver]

    A shallow embedding of [LinearProgramSolver::_solve_LPSOLVE]
    (src/math/linear_program_solver_LPSOLVE.cpp) and the properties of its
    model-to-solver translation and of its status handling.

    Conventions of the embedding
    - [double] values are idealised as real numbers: they are only stored,
      copied and (in the engine's row semantics) added and multiplied;
      rounding is not modelled.
    - [std::size_t] is a 64-bit unsigned and [int] a 32-bit signed integer;
      both are carried as [Z] with the wrap-around of every conversion and
      addition written out.
    - A [std::unordered_map] is carried as the sequence of (key, value)
      entries its iterator yields; keys are unique, the order is arbitrary.
    - The lp_solve library is an external collaborator: the calls made on
      the handle are recorded in a trace, and what the library answers
      (handle creation, status code, column values) comes from an
      environment.  So do the faults of the C++ run time (a failing
      allocation inside a [std::vector] operation). *)

From Stdlib Require Import String List ZArith Reals Bool Lia Lra Permutation.
Import ListNotations.

Open Scope Z_scope.

(** ** Machine integers *)

Definition size_t_max : Z := 2 ^ 64 - 1.
Definition INT_MAX : Z := 2 ^ 31 - 1.

(** Unsigned 64-bit addition, as in [var_idx + 1]. *)
Definition size_t_add (a b : Z) : Z := (a + b) mod 2 ^ 64.

(** Conversion of a [std::size_t] value to [int] (two's complement). *)
Definition to_int (z : Z) : Z := (z + 2 ^ 31) mod 2 ^ 32 - 2 ^ 31.

Abbreviation double := R (only parsing).

(** ** The linear program (linear_program.h, read through its accessors) *)

(** Modelled from the spec: the class [Variable<double>] is declared in a
    header that is not part of the sources at hand; section 3 of the
    specification gives its attributes: a kind among CONTINUOUS, INTEGER
    and BINARY, a bound kind that is DOUBLE or not, and the two bounds that
    [get_bound(lb, ub)] writes into its arguments. *)
Module Var.
Inductive VariableType := CONTINUOUS | INTEGER | BINARY.
Inductive BoundType := NONE | DOUBLE.

Record t := mk {
  variable_type : VariableType;
  bound_type : BoundType;
  lower : double;
  upper : double
}.

Definition get_bound (v : t) : double * double := (lower v, upper v).

Definition is_DOUBLE (v : t) : bool :=
  match bound_type v with DOUBLE => true | NONE => false end.
End Var.

(** Modelled from the spec: the class [LinearConstraint<double>] is declared
    in the same missing header.  Section 3 gives a sparse coefficient map, a
    bound kind among FIXED, LOWER, UPPER and DOUBLE, one bound ([rhs], read
    by [get_bound()]) for the first three and two ([lower], [upper], read by
    [get_bound(lb, ub)]) for DOUBLE.  The [switch] of the source has a
    [default] arm, so the enumeration can hold a further value: [OTHER]
    stands for every enumerator that the [switch] does not name. *)
Module Constraint.
Inductive BoundType := FIXED | LOWER | UPPER | DOUBLE | OTHER.

Record t := mk {
  coefficients : list (Z * double);
  bound_type : BoundType;
  rhs : double;
  lower : double;
  upper : double
}.

Definition get_bound (c : t) : double := rhs c.
Definition get_bounds (c : t) : double * double := (lower c, upper c).
End Constraint.

Record LinearExpression := { coefficients : list (Z * double) }.

Record LinearProgram := {
  variables : list Var.t;
  objective : LinearExpression;
  constraints : list Constraint.t
}.

(** ** The lp_solve interface (lp_lib.h) *)

Module lp_lib.
Inductive constr_type := LE | GE | EQ.
Inductive verbosity :=
  NEUTRAL | CRITICAL | SEVERE | IMPORTANT | NORMAL | DETAILED | FULL.

(** The calls of the interface that matter here, with their arguments
    other than the handle (one run owns one handle).  The last three are
    the interface's ways of giving a column explicit bounds. *)
Inductive call :=
| make_lp (rows columns : Z)
| set_verbose (level : verbosity)
| set_int (column : Z) (must_be_int : bool)
| set_binary (column : Z) (must_be_bin : bool)
| set_obj_fn (row : list double)
| get_Ncolumns
| resize_lp (rows columns : Z)
| set_add_rowmode (turnon : bool)
| add_constraintex (count : Z) (row : list double) (colno : list Z)
    (constr : constr_type) (rh : double)
| solve
| get_variables
| delete_lp
| set_bounds (column : Z) (lower upper : double)
| set_lowbo (column : Z) (value : double)
| set_upbo (column : Z) (value : double).

(** What [make_lp] hands back: the problem under construction, of which
    only the number of columns is read back. *)
Record lprec := { columns_of : Z }.
End lp_lib.

Definition TRUE : bool := true.
Definition FALSE : bool := false.

(** ** State, faults and the monad of the embedding *)

(** What is thrown: an object of a class derived from [std::exception],
    whose own [what()] returns [what], or anything else. *)
Inductive exn :=
| std_exception (what : string)
| other_exception.

Inductive message :=
| cerr (text : string)
| Logger_err (text : string).

(** What the lp_solve library and the C++ run time answer during one run. *)
Record Environment := {
  make_lp_null : bool;            (* [make_lp] returns a null pointer *)
  status : Z;                     (* the value [::solve] returns *)
  values : nat -> double;         (* value of column [j + 1] after the solve *)
  throws : nat -> option exn;     (* fault of the k-th vector operation *)
  what_of_copy : string -> string (* [what()] of the [std::exception] copied
                                     from an object whose [what()] is given *)
}.

Record World := {
  calls : list lp_lib.call;       (* calls made on the library, in order *)
  logged : list message;          (* lines written to the error streams *)
  result_ : list double;          (* the member [result_] of the solver *)
  vector_ops : nat                (* vector operations performed so far *)
}.

Definition initial (r : list double) : World :=
  {| calls := []; logged := []; result_ := r; vector_ops := 0 |}.

(** A computation returns a value, leaves by an exception, or has undefined
    behaviour (an out-of-range subscript). *)
Inductive result (A : Type) :=
| Val (a : A)
| Exc (e : exn)
| Undefined.
Arguments Val {A} a.
Arguments Exc {A} e.
Arguments Undefined {A}.

Definition M (A : Type) : Type := World -> result A * World.

Definition ret {A} (a : A) : M A := fun w => (Val a, w).

Definition bind {A B} (m : M A) (k : A -> M B) : M B :=
  fun w =>
    match m w with
    | (Val a, w') => k a w'
    | (Exc e, w') => (Exc e, w')
    | (Undefined, w') => (Undefined, w')
    end.

Declare Scope lp_scope.
Delimit Scope lp_scope with lp.
Notation "x <- m ;; k" := (bind m (fun x => k))
  (at level 100, m at next level, right associativity) : lp_scope.
Notation "' pat <- m ;; k" := (bind m (fun x => match x with pat => k end))
  (at level 100, pat pattern, m at next level, right associativity) : lp_scope.
Notation "m ;;; k" := (bind m (fun _ => k))
  (at level 100, right associativity) : lp_scope.
Open Scope lp_scope.

Definition throw {A} (e : exn) : M A := fun w => (Exc e, w).
Definition undefined {A} : M A := fun w => (Undefined, w).

(** [try { m } catch (std::exception e) { h1 e } catch (...) { h2 }] *)
Definition try_catch {A} (m : M A) (handler : exn -> M A) : M A :=
  fun w =>
    match m w with
    | (Exc e, w') => handler e w'
    | r => r
    end.

Definition call (c : lp_lib.call) : M unit :=
  fun w => (Val tt, {| calls := calls w ++ [c]; logged := logged w;
                       result_ := result_ w; vector_ops := vector_ops w |}).

Definition log (m : message) : M unit :=
  fun w => (Val tt, {| calls := calls w; logged := logged w ++ [m];
                       result_ := result_ w; vector_ops := vector_ops w |}).

Definition get_result_ : M (list double) := fun w => (Val (result_ w), w).

Definition set_result_ (r : list double) : M unit :=
  fun w => (Val tt, {| calls := calls w; logged := logged w;
                       result_ := r; vector_ops := vector_ops w |}).

Fixpoint for_each {A} (l : list A) (body : A -> M unit) : M unit :=
  match l with
  | [] => ret tt
  | a :: l' => body a ;;; for_each l' body
  end.

Fixpoint fold_each {A S} (l : list A) (body : S -> A -> M S) (s : S) : M S :=
  match l with
  | [] => ret s
  | a :: l' => s' <- body s a ;; fold_each l' body s'
  end.

(** The elements of a vector with their subscripts, as [std::size_t]. *)
Definition indexed {A} (l : list A) : list (Z * A) :=
  combine (map Z.of_nat (seq 0 (length l))) l.

Definition size {A} (l : list A) : Z := Z.of_nat (length l).

Section Solver.

Variable E : Environment.

(** A [std::vector] operation that may allocate: it throws what the
    environment says the run time throws at this point, if anything. *)
Definition vector_op : M unit :=
  fun w =>
    let w' := {| calls := calls w; logged := logged w;
                 result_ := result_ w; vector_ops := S (vector_ops w) |} in
    match throws E (vector_ops w) with
    | Some e => (Exc e, w')
    | None => (Val tt, w')
    end.

(** [std::vector<T> v(n, x)] *)
Definition vector_fill {A} (n : nat) (x : A) : M (list A) :=
  vector_op ;;; ret (repeat x n).

(** [v.push_back(x)] *)
Definition push_back {A} (v : list A) (x : A) : M (list A) :=
  vector_op ;;; ret (v ++ [x]).

(** [v.resize(n)] on a vector of doubles: truncates, or pads with zeros. *)
Definition resize (v : list double) (n : nat) : M (list double) :=
  vector_op ;;; ret (firstn n v ++ repeat 0%R (n - length v)).

(** [v[i] = x]; the subscript operator does not check its argument. *)
Fixpoint store (v : list double) (i : nat) (x : double) : option (list double) :=
  match v, i with
  | [], _ => None
  | _ :: v', O => Some (x :: v')
  | y :: v', S i' => option_map (cons y) (store v' i' x)
  end.

Definition subscript_store (v : list double) (i : Z) (x : double) : M (list double) :=
  match store v (Z.to_nat i) x with
  | Some v' => ret v'
  | None => undefined
  end.

(** *** The library calls that answer *)

Definition make_lp (rows columns : Z) : M (option lp_lib.lprec) :=
  call (lp_lib.make_lp rows columns) ;;;
  ret (if make_lp_null E then None
       else Some {| lp_lib.columns_of := columns |}).

Definition get_Ncolumns (lp : lp_lib.lprec) : M Z :=
  call lp_lib.get_Ncolumns ;;; ret (lp_lib.columns_of lp).

Definition solve : M Z :=
  call lp_lib.solve ;;; ret (status E).

(** [get_variables(lp, buffer)] copies the value of every column of the
    problem into the buffer, which must be large enough. *)
Definition get_variables (lp : lp_lib.lprec) (buffer : list double) : M (list double) :=
  call lp_lib.get_variables ;;;
  let n := Z.to_nat (lp_lib.columns_of lp) in
  if (n <=? length buffer)%nat
  then ret (map (values E) (seq 0 n) ++ skipn n buffer)
  else undefined.

(** *** The phases of [_solve_LPSOLVE] *)

(** Lines 28-39, "create variables".  The bounds read into [lb] and [ub]
    are not used afterwards. *)
Definition create_variables (vars : list Var.t) : M unit :=
  for_each (indexed vars) (fun '(i, var) =>
    let '(lb, ub) :=
      if Var.is_DOUBLE var then Var.get_bound var else (0%R, 1%R) in
    match Var.variable_type var with
    | Var.INTEGER => call (lp_lib.set_int (to_int i) TRUE)
    | Var.BINARY => call (lp_lib.set_binary (to_int i) TRUE)
    | Var.CONTINUOUS => ret tt
    end).

(** Lines 45-55, "set objective". *)
Definition set_objective (vars : list Var.t) (obj : LinearExpression) : M unit :=
  row <- vector_fill (length vars + 1) 0%R ;;
  row <- fold_each (coefficients obj) (fun row '(var_idx, coeff) =>
           subscript_store row (size_t_add var_idx 1) coeff) row ;;
  call (lp_lib.set_obj_fn row).

(** Lines 67-100, the body of the loop over the constraints. *)
Definition add_constraint (cstr : Constraint.t) : M unit :=
  '(colno, sparserow) <-
     fold_each (Constraint.coefficients cstr)
       (fun '(colno, sparserow) '(var_idx, coeff) =>
          colno <- push_back colno (to_int (size_t_add var_idx 1)) ;;
          sparserow <- push_back sparserow coeff ;;
          ret (colno, sparserow))
       ([], []) ;;
  match Constraint.bound_type cstr with
  | Constraint.FIXED =>
      call (lp_lib.add_constraintex (to_int (size colno)) sparserow colno
              lp_lib.EQ (Constraint.get_bound cstr))
  | Constraint.LOWER =>
      call (lp_lib.add_constraintex (to_int (size colno)) sparserow colno
              lp_lib.GE (Constraint.get_bound cstr))
  | Constraint.UPPER =>
      call (lp_lib.add_constraintex (to_int (size colno)) sparserow colno
              lp_lib.LE (Constraint.get_bound cstr))
  | Constraint.DOUBLE =>
      let '(lb, ub) := Constraint.get_bounds cstr in
      call (lp_lib.add_constraintex (to_int (size colno)) sparserow colno
              lp_lib.GE lb) ;;;
      call (lp_lib.add_constraintex (to_int (size colno)) sparserow colno
              lp_lib.LE ub)
  | Constraint.OTHER => ret tt
  end.

(** Lines 59-103, "Add constraints". *)
Definition add_constraints (lp : lp_lib.lprec) (cstrs : list Constraint.t) : M unit :=
  ncols <- get_Ncolumns lp ;;
  call (lp_lib.resize_lp (to_int (size cstrs)) ncols) ;;;
  call (lp_lib.set_add_rowmode TRUE) ;;;
  for_each cstrs add_constraint ;;;
  call (lp_lib.set_add_rowmode FALSE).

(** Lines 105-144, the [switch] over the status code. *)
Definition report (lp : lp_lib.lprec) (vars : list Var.t) (ret_code : Z) : M unit :=
  match ret_code with
  | 0 =>
      r <- get_result_ ;;
      r <- resize r (length vars) ;;
      set_result_ r ;;;
      r <- get_variables lp r ;;
      set_result_ r
  | -2 => log (Logger_err "Out of memory")
  | 1 => log (Logger_err "The model is sub-optimal. Only happens if there are integer variables and there is already an integer solution found. The solution is not guaranteed the most optimal one.")
  | 2 => log (Logger_err "The model is infeasible")
  | 3 => log (Logger_err "The model is unbounded")
  | 4 => log (Logger_err "The model is degenerative")
  | 5 => log (Logger_err "Numerical failure encountered")
  | 6 => log (Logger_err "The abort() routine was called")
  | 7 => log (Logger_err "A timeout occurred")
  | 9 => log (Logger_err "The model could be solved by presolve. This can only happen if presolve is active via set_presolve()")
  | 25 => log (Logger_err "Accuracy error encountered")
  | _ => ret tt
  end.

(** Lines 9-146, the [try] block.  Its value is [Some b] when it leaves the
    function by [return b], and [None] when control reaches its end. *)
Definition try_block (program : LinearProgram) : M (option bool) :=
  let vars := variables program in
  match vars with
  | [] =>
      log (cerr "variable set is empty") ;;;
      ret (Some false)
  | _ :: _ =>
      lp <- make_lp 0 (to_int (size vars)) ;;
      match lp with
      | None =>
          log (Logger_err "error in creating a LP model") ;;;
          ret (Some false)
      | Some lp =>
          call (lp_lib.set_verbose lp_lib.SEVERE) ;;;
          create_variables vars ;;;
          set_objective vars (objective program) ;;;
          add_constraints lp (constraints program) ;;;
          ret_code <- solve ;;
          report lp vars ret_code ;;;
          call lp_lib.delete_lp ;;;
          ret None
      end
  end.

(** Lines 148-153, the two handlers.  The first catches [std::exception]
    by value: [e] is a copy of the base part of the thrown object, and
    [e.what()] is the text of that copy, which the implementation of the
    standard library decides. *)
Definition handlers (e : exn) : M (option bool) :=
  match e with
  | std_exception what =>
      log (Logger_err ("Error code = " ++ what_of_copy E what)%string) ;;;
      ret None
  | other_exception =>
      log (Logger_err "Exception during optimization") ;;; ret None
  end.

Definition _solve_LPSOLVE (program : LinearProgram) : M bool :=
  returned <- try_catch (try_block program) handlers ;;
  match returned with
  | Some b => ret b
  | None => ret false
  end.

End Solver.

(** ** Reading a run *)

(** [extend w tr k]: the world after the calls [tr] and [k] vector
    operations, with the log and [result_] untouched. *)
Definition extend (w : World) (tr : list lp_lib.call) (k : nat) : World :=
  {| calls := calls w ++ tr; logged := logged w;
     result_ := result_ w; vector_ops := (vector_ops w + k)%nat |}.

(** A computation that only talks to the library, through calls that
    satisfy [P]: whatever its outcome, the log and [result_] are as before. *)
Definition emits {A} (P : lp_lib.call -> Prop) (m : M A) : Prop :=
  forall w, exists tr k, snd (m w) = extend w tr k /\ Forall P tr.

(** The calls by which the translation describes the problem. *)
Definition describes (c : lp_lib.call) : Prop :=
  match c with
  | lp_lib.set_int _ _ | lp_lib.set_binary _ _ | lp_lib.set_obj_fn _
  | lp_lib.get_Ncolumns | lp_lib.resize_lp _ _ | lp_lib.set_add_rowmode _
  | lp_lib.add_constraintex _ _ _ _ _ => True
  | _ => False
  end.

Definition registers_bounds (c : lp_lib.call) : bool :=
  match c with
  | lp_lib.set_bounds _ _ _ | lp_lib.set_lowbo _ _ | lp_lib.set_upbo _ _ => true
  | _ => false
  end.

Definition is_row (c : lp_lib.call) : bool :=
  match c with
  | lp_lib.add_constraintex _ _ _ _ _ => true
  | _ => false
  end.

Definition is_delete_lp (c : lp_lib.call) : bool :=
  match c with lp_lib.delete_lp => true | _ => false end.

Definition is_solve (c : lp_lib.call) : bool :=
  match c with lp_lib.solve => true | _ => false end.

(** How often the handle is released in a trace. *)
Definition releases (tr : list lp_lib.call) : nat :=
  length (filter is_delete_lp tr).

(** The column that stands for variable [var_idx] in the rows of the
    objective and of the constraints (lines 53 and 76): lp_solve counts
    its columns from 1. *)
Definition column_of (var_idx : Z) : Z := to_int (size_t_add var_idx 1).

(** The calls of the loop over the variables. *)
Definition variable_calls (vars : list Var.t) : list lp_lib.call :=
  flat_map (fun '(i, var) =>
    match Var.variable_type var with
    | Var.INTEGER => [lp_lib.set_int (to_int i) TRUE]
    | Var.BINARY => [lp_lib.set_binary (to_int i) TRUE]
    | Var.CONTINUOUS => []
    end) (indexed vars).

(** The dense objective row: the stores of lines 50-54 one after the
    other, [None] when a subscript is out of range. *)
Fixpoint fill (entries : list (Z * double)) (row : list double) : option (list double) :=
  match entries with
  | [] => Some row
  | (var_idx, coeff) :: rest =>
      match store row (Z.to_nat (size_t_add var_idx 1)) coeff with
      | Some row' => fill rest row'
      | None => None
      end
  end.

(** *** The rows the specification prescribes (section 4.1)

    For one constraint: the (column, coefficient) pairs of its map, then
    one row [== rhs] for FIXED, one row [>= rhs] for LOWER, one row
    [<= rhs] for UPPER, and for DOUBLE two rows on the same pairs, first
    [>= lower] and then [<= upper]. *)
Definition prescribed_rows (c : Constraint.t) : list lp_lib.call :=
  let entries := Constraint.coefficients c in
  let colno := map (fun e => column_of (fst e)) entries in
  let sparserow := map snd entries in
  let row sense bound :=
    lp_lib.add_constraintex (to_int (size entries)) sparserow colno sense bound in
  match Constraint.bound_type c with
  | Constraint.FIXED => [row lp_lib.EQ (Constraint.rhs c)]
  | Constraint.LOWER => [row lp_lib.GE (Constraint.rhs c)]
  | Constraint.UPPER => [row lp_lib.LE (Constraint.rhs c)]
  | Constraint.DOUBLE =>
      [row lp_lib.GE (Constraint.lower c); row lp_lib.LE (Constraint.upper c)]
  | Constraint.OTHER => []
  end.

(** *** The outcomes of the specification (section 4.3)

    The table of section 4.3, over the status codes of lp_lib.h:
    NOMEMORY -2, SUBOPTIMAL 1, INFEASIBLE 2, UNBOUNDED 3, DEGENERATE 4,
    NUMFAILURE 5, USERABORT 6, TIMEOUT 7, PRESOLVED 9, ACCURACYERROR 25. *)
Inductive Reason :=
| ResourceExhausted | SubOptimal | Infeasible | Unbounded | Degenerate
| NumericFailure | Aborted | Timeout | Unhandled | AccuracyError | Unknown.

Inductive Outcome :=
| Success
| Failure (reason : Reason).

Definition outcome_of_status (code : Z) : Outcome :=
  match code with
  | 0 => Success
  | -2 => Failure ResourceExhausted
  | 1 => Failure SubOptimal
  | 2 => Failure Infeasible
  | 3 => Failure Unbounded
  | 4 => Failure Degenerate
  | 5 => Failure NumericFailure
  | 6 => Failure Aborted
  | 7 => Failure Timeout
  | 9 => Failure Unhandled
  | 25 => Failure AccuracyError
  | _ => Failure Unknown
  end.

(** How the source makes a failure known: the function has no outcome type,
    every failure is the line it writes to the error log; an unknown code
    writes nothing. *)
Definition diagnostic (r : Reason) : list message :=
  match r with
  | ResourceExhausted => [Logger_err "Out of memory"]
  | SubOptimal => [Logger_err "The model is sub-optimal. Only happens if there are integer variables and there is already an integer solution found. The solution is not guaranteed the most optimal one."]
  | Infeasible => [Logger_err "The model is infeasible"]
  | Unbounded => [Logger_err "The model is unbounded"]
  | Degenerate => [Logger_err "The model is degenerative"]
  | NumericFailure => [Logger_err "Numerical failure encountered"]
  | Aborted => [Logger_err "The abort() routine was called"]
  | Timeout => [Logger_err "A timeout occurred"]
  | Unhandled => [Logger_err "The model could be solved by presolve. This can only happen if presolve is active via set_presolve()"]
  | AccuracyError => [Logger_err "Accuracy error encountered"]
  | Unknown => []
  end.

Definition listed_status (code : Z) : Prop :=
  In code [-2; 1; 2; 3; 4; 5; 6; 7; 9; 25].

(** *** Sums (section 8, coefficient preservation)

    An assignment gives every variable index a value. *)
Definition assignment := Z -> double.

(** The sum computed directly from a sparse coefficient map. *)
Fixpoint map_sum (entries : list (Z * double)) (x : assignment) : double :=
  match entries with
  | [] => 0%R
  | (var_idx, coeff) :: rest => (coeff * x var_idx + map_sum rest x)%R
  end.

(** Modelled from the spec: lp_solve itself is not part of the sources at
    hand.  A dense row as [set_obj_fn] reads it: element 0 is ignored
    (line 44), element [j] is the coefficient of column [j], which holds
    variable [j - 1]. *)
Fixpoint dense_sum (first : Z) (cols : list double) (x : assignment) : double :=
  match cols with
  | [] => 0%R
  | c :: cols' => (c * x first + dense_sum (first + 1) cols' x)%R
  end.

Definition objective_value (row : list double) (x : assignment) : double :=
  dense_sum 0 (tl row) x.

(** Modelled from the spec: a sparse row as [add_constraintex] reads it:
    the first [count] entries of [row] are the coefficients of the columns
    named at the same positions of [colno]. *)
Definition row_value (count : Z) (row : list double) (colno : list Z)
    (x : assignment) : double :=
  map_sum (firstn (Z.to_nat count)
             (combine (map (fun j => j - 1) colno) row)) x.

Definition keys (entries : list (Z * double)) : list Z := map fst entries.

(** A sparse coefficient map of a program with [n] variables: unique keys,
    each a variable index. *)
Definition coefficient_map (n : Z) (entries : list (Z * double)) : Prop :=
  NoDup (keys entries) /\ Forall (fun k => 0 <= k < n) (keys entries).

(** The calls of a run up to and including the solve, when no vector
    operation fails and [row] is the objective row. *)
Definition translation (program : LinearProgram) (row : list double) : list lp_lib.call :=
  let vars := variables program in
  let cstrs := constraints program in
  [lp_lib.make_lp 0 (to_int (size vars)); lp_lib.set_verbose lp_lib.SEVERE]
  ++ variable_calls vars
  ++ [lp_lib.set_obj_fn row; lp_lib.get_Ncolumns;
      lp_lib.resize_lp (to_int (size cstrs)) (to_int (size vars));
      lp_lib.set_add_rowmode TRUE]
  ++ flat_map prescribed_rows cstrs
  ++ [lp_lib.set_add_rowmode FALSE; lp_lib.solve].

(** [result_] after the arm for status 0: resized to the number of
    variables, then overwritten with the values of the columns. *)
Definition solution (E : Environment) (n : nat) (columns : Z) (r : list double) : list double :=
  let buffer := firstn n r ++ repeat 0%R (n - length r) in
  map (values E) (seq 0 (Z.to_nat columns)) ++ skipn (Z.to_nat columns) buffer.

Definition with_logged (w : World) (lines : list message) : World :=
  {| calls := calls w; logged := logged w ++ lines;
     result_ := result_ w; vector_ops := vector_ops w |}.

Definition with_result (w : World) (r : list double) : World :=
  {| calls := calls w; logged := logged w;
     result_ := r; vector_ops := vector_ops w |}.

(** The part of the [try] block between the creation of the handle and the
    [switch]: lines 25-104. *)
Definition populate (E : Environment) (program : LinearProgram)
    (lp : lp_lib.lprec) : M Z :=
  call (lp_lib.set_verbose lp_lib.SEVERE) ;;;
  create_variables (variables program) ;;;
  set_objective E (variables program) (objective program) ;;;
  add_constraints E lp (constraints program) ;;;
  solve E.

(** The handle that [make_lp(0, variables.size())] returns. *)
Definition handle (program : LinearProgram) : lp_lib.lprec :=
  {| lp_lib.columns_of := to_int (size (variables program)) |}.

(** The calls made while the handle exists and before it is released. *)
Definition in_use (c : lp_lib.call) : Prop :=
  is_delete_lp c = false /\ registers_bounds c = false.

(** ** Sample inputs *)

(** An engine that creates the handle, answers [code] to the solve and
    reports the value [v] for every column; no vector operation fails. *)
Definition engine (code : Z) (v : double) : Environment :=
  {| make_lp_null := false; status := code;
     values := fun _ => v; throws := fun _ => None;
     what_of_copy := fun _ => "std::exception"%string |}.

(** The same engine in a run whose [k]-th vector operation cannot
    allocate.  The copy of a thrown object answers "std::exception" to
    [what()], as with the GNU standard library. *)
Definition engine_out_of_memory (code : Z) (v : double) (k : nat) : Environment :=
  {| make_lp_null := false; status := code; values := fun _ => v;
     throws := fun j => if Nat.eqb j k
                        then Some (std_exception "std::bad_alloc") else None;
     what_of_copy := fun _ => "std::exception"%string |}.

(** One variable with explicit bounds [0, 10] and the constraint
    [x0 == 5] (section 8 of the specification). *)
Definition fixed_program (kind : Var.VariableType) : LinearProgram :=
  {| variables := [Var.mk kind Var.DOUBLE 0%R 10%R];
     objective := {| coefficients := [(0, 1%R)] |};
     constraints := [Constraint.mk [(0, 1%R)] Constraint.FIXED 5%R 0%R 0%R] |}.

(** Two variables, the objective [x0 + x1] and one constraint on
    [x0 + 2 x1] of the given kind, with [rhs] 1 and the range [1, 4]. *)
Definition two_variable_program (kind : Constraint.BoundType) : LinearProgram :=
  {| variables := [Var.mk Var.CONTINUOUS Var.DOUBLE 0%R 1%R;
                   Var.mk Var.INTEGER Var.NONE 0%R 0%R];
     objective := {| coefficients := [(1, 1%R); (0, 1%R)] |};
     constraints :=
       [Constraint.mk [(0, 1%R); (1, 2%R)] kind 1%R 1%R 4%R;
        Constraint.mk [(1, 1%R)] Constraint.UPPER 3%R 0%R 0%R] |}.

(** No variable at all, but a constraint. *)
Definition empty_program : LinearProgram :=
  {| variables := [];
     objective := {| coefficients := [] |};
     constraints := [Constraint.mk [] Constraint.LOWER 1%R 0%R 0%R] |}.

(** A call that adds a row whose value under [x] is [s]. *)
Definition row_sums_to (x : assignment) (s : double) (c : lp_lib.call) : Prop :=
  match c with
  | lp_lib.add_constraintex count row colno _ _ => row_value count row colno x = s
  | _ => False
  end.

(** The line a handler writes for the exception it catches: for an
    exception derived from [std::exception], the text of the handler's
    copy, not the text of the object thrown. *)
Definition handler_line (E : Environment) (e : exn) : message :=
  match e with
  | std_exception what => Logger_err ("Error code = " ++ what_of_copy E what)
  | other_exception => Logger_err "Exception during optimization"
  end.

(** The calls that mark a column as integer or binary. *)
Definition is_mark (c : lp_lib.call) : bool :=
  match c with
  | lp_lib.set_int _ _ | lp_lib.set_binary _ _ => true
  | _ => false
  end.

(** An engine whose [make_lp] returns a null pointer. *)
Definition engine_without_handle : Environment :=
  {| make_lp_null := true; status := 0;
     values := fun _ => 0%R; throws := fun _ => None;
     what_of_copy := fun _ => "std::exception"%string |}.

(** How often a trace asks the library to solve. *)
Definition solves (tr : list lp_lib.call) : nat :=
  length (filter is_solve tr).

(** A computation that never runs into undefined behaviour. *)
Definition defined {A} (m : M A) : Prop :=
  forall w, fst (m w) <> Undefined.

(** The subscript at which line 53 stores the coefficient of an entry. *)
Definition subscript (entry : Z * double) : nat :=
  Z.to_nat (size_t_add (fst entry) 1).

(** A row whose arrays agree: as many coefficients as column numbers, and
    a count that is this number converted to [int]. *)
Definition arrays_agree (c : lp_lib.call) : Prop :=
  match c with
  | lp_lib.add_constraintex count row colno _ _ =>
      length row = length colno /\ count = to_int (size colno)
  | _ => False
  end.

(** A row whose column numbers all lie in [1, n]. *)
Definition columns_within (n : Z) (c : lp_lib.call) : Prop :=
  match c with
  | lp_lib.add_constraintex _ _ colno _ _ => Forall (fun j => 1 <= j <= n) colno
  | _ => False
  end.

Definition is_DOUBLE (c : Constraint.t) : bool :=
  match Constraint.bound_type c with Constraint.DOUBLE => true | _ => false end.

Definition is_OTHER (c : Constraint.t) : bool :=
  match Constraint.bound_type c with Constraint.OTHER => true | _ => false end.

(** Two variables and one constraint of each of the four kinds:
    [x0 == 5], [x1 >= 1], [x0 + x1 <= 8] and [1 <= x0 + 2 x1 <= 4]. *)
Definition all_kinds_program : LinearProgram :=
  {| variables := [Var.mk Var.CONTINUOUS Var.NONE 0%R 0%R;
                   Var.mk Var.CONTINUOUS Var.NONE 0%R 0%R];
     objective := {| coefficients := [(0, 1%R); (1, 1%R)] |};
     constraints :=
       [Constraint.mk [(0, 1%R)] Constraint.FIXED 5%R 0%R 0%R;
        Constraint.mk [(1, 1%R)] Constraint.LOWER 1%R 0%R 0%R;
        Constraint.mk [(0, 1%R); (1, 1%R)] Constraint.UPPER 8%R 0%R 0%R;
        Constraint.mk [(0, 1%R); (1, 2%R)] Constraint.DOUBLE 0%R 1%R 4%R] |}.

(** A computation that adds no row, whatever its outcome. *)
Definition rowless {A} (m : M A) : Prop :=
  forall w, exists tr,
    calls (snd (m w)) = calls w ++ tr /\ filter is_row tr = [].

(** A computation that, whatever its outcome, has added the rows
    prescribed for the first constraints of [cstrs], in order, and no
    other row. *)
Definition rows_prefix (cstrs : list Constraint.t) {A} (m : M A) : Prop :=
  forall w, exists tr done rest,
    calls (snd (m w)) = calls w ++ tr /\
    cstrs = done ++ rest /\
    filter is_row tr = flat_map prescribed_rows done.

(** * Properties *)

(** ** The monad *)

Lemma bind_Val_inv {A B} (m : M A) (k : A -> M B) w b w2 :
  bind m k w = (Val b, w2) ->
  exists a w1, m w = (Val a, w1) /\ k a w1 = (Val b, w2).
Proof.
  unfold bind. destruct (m w) as [[a | e |] w1]; intros H; try discriminate.
  exists a, w1. split; [reflexivity | exact H].
Qed.

Lemma bind_Exc_inv {A B} (m : M A) (k : A -> M B) w e w2 :
  bind m k w = (Exc e, w2) ->
  m w = (Exc e, w2) \/
  exists a w1, m w = (Val a, w1) /\ k a w1 = (Exc e, w2).
Proof.
  unfold bind. destruct (m w) as [[a | e' |] w1]; intros H; try discriminate.
  - right. exists a, w1. split; [reflexivity | exact H].
  - left. injection H as -> ->. reflexivity.
Qed.

Lemma bind_Val {A B} (m : M A) (k : A -> M B) w a w1 :
  m w = (Val a, w1) -> bind m k w = k a w1.
Proof. unfold bind. intros ->. reflexivity. Qed.

Lemma extend_nil w : extend w [] 0 = w.
Proof.
  destruct w. unfold extend. simpl. rewrite app_nil_r, Nat.add_0_r. reflexivity.
Qed.

Lemma extend_extend w tr1 k1 tr2 k2 :
  extend (extend w tr1 k1) tr2 k2 = extend w (tr1 ++ tr2) (k1 + k2).
Proof.
  unfold extend. simpl. rewrite app_assoc, Nat.add_assoc. reflexivity.
Qed.

Lemma call_extend c w : call c w = (Val tt, extend w [c] 0).
Proof.
  unfold call, extend. rewrite Nat.add_0_r. reflexivity.
Qed.

Section Emits.

Context {P : lp_lib.call -> Prop}.

Lemma emits_ret {A} (a : A) : emits P (ret a).
Proof.
  intros w. exists [], 0%nat. simpl. rewrite extend_nil. auto.
Qed.

Lemma emits_undefined {A} : emits P (@undefined A).
Proof.
  intros w. exists [], 0%nat. simpl. rewrite extend_nil. auto.
Qed.

Lemma emits_bind {A B} (m : M A) (k : A -> M B) :
  emits P m -> (forall a, emits P (k a)) -> emits P (bind m k).
Proof.
  intros Hm Hk w. destruct (Hm w) as (tr & n & Hw & Htr).
  unfold bind. destruct (m w) as [[a | e |] w1]; simpl in Hw; subst w1.
  - destruct (Hk a (extend w tr n)) as (tr' & n' & Hw' & Htr').
    exists (tr ++ tr'), (n + n')%nat. rewrite Hw', extend_extend.
    split; [reflexivity | apply Forall_app; auto].
  - exists tr, n. auto.
  - exists tr, n. auto.
Qed.

Lemma emits_call c : P c -> emits P (call c).
Proof.
  intros Hc w. exists [c], 0%nat. rewrite call_extend. auto.
Qed.

Lemma emits_for_each {A} (l : list A) (body : A -> M unit) :
  (forall a, emits P (body a)) -> emits P (for_each l body).
Proof.
  intros Hbody. induction l as [| a l IH]; simpl.
  - apply emits_ret.
  - apply emits_bind; auto.
Qed.

Lemma emits_fold_each {A S} (l : list A) (body : S -> A -> M S) :
  (forall s a, emits P (body s a)) -> forall s, emits P (fold_each l body s).
Proof.
  intros Hbody. induction l as [| a l IH]; intros s; simpl.
  - apply emits_ret.
  - apply emits_bind; auto.
Qed.

End Emits.

Lemma emits_weaken {A} (P Q : lp_lib.call -> Prop) (m : M A) :
  (forall c, P c -> Q c) -> emits P m -> emits Q m.
Proof.
  intros HPQ Hm w. destruct (Hm w) as (tr & k & Hw & Htr).
  exists tr, k. split; [exact Hw |].
  eapply Forall_impl; [exact HPQ | exact Htr].
Qed.

(** ** The phases of the translation *)

Section Phases.

Variable E : Environment.

Lemma emits_vector_op P : emits P (vector_op E).
Proof.
  intros w. exists [], 1%nat. unfold vector_op, extend.
  rewrite app_nil_r, Nat.add_1_r.
  destruct (throws E (vector_ops w)); auto.
Qed.

Lemma emits_push_back P {A} (v : list A) (x : A) : emits P (push_back E v x).
Proof.
  apply emits_bind; [apply emits_vector_op | intros; apply emits_ret].
Qed.

Lemma emits_subscript_store P v i x : emits P (subscript_store v i x).
Proof.
  unfold subscript_store. destruct (store v (Z.to_nat i) x).
  - apply emits_ret.
  - apply emits_undefined.
Qed.

Lemma emits_create_variables vars : emits describes (create_variables vars).
Proof.
  apply emits_for_each. intros [i var].
  destruct (if Var.is_DOUBLE var then Var.get_bound var else (0%R, 1%R)) as [lb ub].
  destruct (Var.variable_type var).
  - apply emits_ret.
  - apply emits_call. exact I.
  - apply emits_call. exact I.
Qed.

Lemma emits_set_objective vars obj : emits describes (set_objective E vars obj).
Proof.
  apply emits_bind.
  { apply emits_bind; [apply emits_vector_op | intros; apply emits_ret]. }
  intros row. apply emits_bind.
  { apply emits_fold_each. intros s [var_idx coeff]. apply emits_subscript_store. }
  intros row'. apply emits_call. exact I.
Qed.

Lemma emits_add_constraint cstr : emits describes (add_constraint E cstr).
Proof.
  apply emits_bind.
  { apply emits_fold_each. intros [colno sparserow] [var_idx coeff].
    apply emits_bind; [apply emits_push_back |].
    intros colno'. apply emits_bind; [apply emits_push_back |].
    intros sparserow'. apply emits_ret. }
  intros [colno sparserow].
  destruct (Constraint.bound_type cstr).
  - apply emits_call. exact I.
  - apply emits_call. exact I.
  - apply emits_call. exact I.
  - destruct (Constraint.get_bounds cstr) as [lb ub].
    apply emits_bind; [apply emits_call; exact I |].
    intros _. apply emits_call. exact I.
  - apply emits_ret.
Qed.

Lemma emits_add_constraints lp cstrs : emits describes (add_constraints E lp cstrs).
Proof.
  apply emits_bind.
  { apply emits_bind; [apply emits_call; exact I | intros; apply emits_ret]. }
  intros ncols. apply emits_bind; [apply emits_call; exact I |].
  intros _. apply emits_bind; [apply emits_call; exact I |].
  intros _. apply emits_bind.
  { apply emits_for_each. intros cstr. apply emits_add_constraint. }
  intros _. apply emits_call. exact I.
Qed.

End Phases.

(** ** Runs that complete *)

Section Runs.

Variable E : Environment.

Lemma for_each_calls {A} (f : A -> list lp_lib.call) (body : A -> M unit) l :
  (forall a w, body a w = (Val tt, extend w (f a) 0)) ->
  forall w, for_each l body w = (Val tt, extend w (flat_map f l) 0).
Proof.
  intros Hbody. induction l as [| a l IH]; intros w; simpl.
  - unfold ret. rewrite extend_nil. reflexivity.
  - rewrite (bind_Val _ _ _ _ _ (Hbody a w)), IH, extend_extend. reflexivity.
Qed.

Lemma create_variables_run vars w :
  create_variables vars w = (Val tt, extend w (variable_calls vars) 0).
Proof.
  unfold create_variables, variable_calls. apply for_each_calls.
  intros [i var] w0.
  destruct (if Var.is_DOUBLE var then Var.get_bound var else (0%R, 1%R)) as [lb ub].
  destruct (Var.variable_type var).
  - unfold ret. rewrite extend_nil. reflexivity.
  - apply call_extend.
  - apply call_extend.
Qed.

Lemma vector_op_Val w w' :
  vector_op E w = (Val tt, w') -> w' = extend w [] 1.
Proof.
  unfold vector_op, extend. rewrite app_nil_r, Nat.add_1_r.
  destruct (throws E (vector_ops w)); intros H; inversion H. reflexivity.
Qed.

Lemma push_back_Val {A} (v : list A) x w v' w' :
  push_back E v x w = (Val v', w') -> v' = v ++ [x] /\ w' = extend w [] 1.
Proof.
  unfold push_back. intros H.
  apply bind_Val_inv in H. destruct H as ([] & w1 & H1 & H2).
  apply vector_op_Val in H1. inversion H2. subst. auto.
Qed.

Lemma fill_run entries : forall row w,
  fold_each entries (fun row '(var_idx, coeff) =>
    subscript_store row (size_t_add var_idx 1) coeff) row w
  = match fill entries row with
    | Some row' => (Val row', w)
    | None => (Undefined, w)
    end.
Proof.
  induction entries as [| [var_idx coeff] rest IH]; intros row w; simpl.
  - reflexivity.
  - unfold bind, subscript_store.
    destruct (store row (Z.to_nat (size_t_add var_idx 1)) coeff) as [row' |]; simpl.
    + apply IH.
    + reflexivity.
Qed.

Lemma set_objective_Val vars obj w w' :
  set_objective E vars obj w = (Val tt, w') ->
  exists row,
    fill (coefficients obj) (repeat 0%R (length vars + 1)) = Some row /\
    w' = extend w [lp_lib.set_obj_fn row] 1.
Proof.
  unfold set_objective, vector_fill. intros H.
  apply bind_Val_inv in H. destruct H as (row0 & w1 & H1 & H).
  apply bind_Val_inv in H1. destruct H1 as ([] & w0 & H0 & H1).
  apply vector_op_Val in H0. inversion H1. subst. clear H1.
  apply bind_Val_inv in H. destruct H as (row & w2 & H2 & H).
  rewrite fill_run in H2.
  destruct (fill (coefficients obj) (repeat 0%R (length vars + 1))) as [row' |];
    inversion H2. subst.
  exists row. split; [reflexivity |].
  rewrite call_extend in H. inversion H. rewrite extend_extend. reflexivity.
Qed.

Lemma pairs_run (entries : list (Z * double)) :
  forall (colno : list Z) (sparserow : list double) w colno' sparserow' w',
  fold_each entries
    (fun '(colno, sparserow) '(var_idx, coeff) =>
       colno <- push_back E colno (to_int (size_t_add var_idx 1)) ;;
       sparserow <- push_back E sparserow coeff ;;
       ret (colno, sparserow))
    (colno, sparserow) w = (Val (colno', sparserow'), w') ->
  colno' = colno ++ map (fun e => column_of (fst e)) entries /\
  sparserow' = sparserow ++ map snd entries /\
  w' = extend w [] (2 * length entries).
Proof.
  induction entries as [| [var_idx coeff] rest IH];
    intros colno sparserow w colno' sparserow' w' H; simpl in H.
  - inversion H. subst. simpl. rewrite !app_nil_r, extend_nil. auto.
  - apply bind_Val_inv in H. destruct H as ([colno1 sparserow1] & w1 & H1 & H).
    apply bind_Val_inv in H1. destruct H1 as (c1 & wa & Ha & H1).
    apply bind_Val_inv in H1. destruct H1 as (s1 & wb & Hb & H1).
    apply push_back_Val in Ha. destruct Ha as [-> ->].
    apply push_back_Val in Hb. destruct Hb as [-> ->].
    inversion H1. subst. clear H1.
    apply IH in H. destruct H as (-> & -> & ->).
    rewrite !extend_extend. simpl. rewrite <- !app_assoc. simpl.
    repeat split. f_equal. lia.
Qed.

Lemma add_constraint_Val cstr w w' :
  add_constraint E cstr w = (Val tt, w') ->
  w' = extend w (prescribed_rows cstr)
         (2 * length (Constraint.coefficients cstr)).
Proof.
  unfold add_constraint. intros H.
  apply bind_Val_inv in H. destruct H as ([colno sparserow] & w1 & H1 & H).
  apply pairs_run in H1. simpl in H1. destruct H1 as (-> & -> & ->).
  unfold prescribed_rows, size, Constraint.get_bound, Constraint.get_bounds in *.
  rewrite !length_map in H.
  destruct (Constraint.bound_type cstr).
  - rewrite call_extend in H. inversion H. rewrite extend_extend.
    f_equal. lia.
  - rewrite call_extend in H. inversion H. rewrite extend_extend.
    f_equal. lia.
  - rewrite call_extend in H. inversion H. rewrite extend_extend.
    f_equal. lia.
  - unfold bind in H. rewrite !call_extend in H. inversion H.
    rewrite !extend_extend. f_equal. lia.
  - inversion H. rewrite <- (extend_nil (extend w [] _)), extend_extend.
    f_equal. lia.
Qed.

Lemma for_each_add_constraint_Val cstrs : forall w w',
  for_each cstrs (add_constraint E) w = (Val tt, w') ->
  exists k, w' = extend w (flat_map prescribed_rows cstrs) k.
Proof.
  induction cstrs as [| cstr rest IH]; intros w w' H; simpl in H.
  - inversion H. exists 0%nat. rewrite extend_nil. reflexivity.
  - apply bind_Val_inv in H. destruct H as ([] & w1 & H1 & H).
    apply add_constraint_Val in H1. subst w1.
    apply IH in H. destruct H as (k & ->).
    eexists. rewrite extend_extend. reflexivity.
Qed.

Lemma add_constraints_Val lp cstrs w w' :
  add_constraints E lp cstrs w = (Val tt, w') ->
  exists k,
    w' = extend w
           ([lp_lib.get_Ncolumns;
             lp_lib.resize_lp (to_int (size cstrs)) (lp_lib.columns_of lp);
             lp_lib.set_add_rowmode TRUE]
            ++ flat_map prescribed_rows cstrs
            ++ [lp_lib.set_add_rowmode FALSE]) k.
Proof.
  unfold add_constraints, get_Ncolumns. intros H.
  unfold bind at 1 2 in H. rewrite call_extend in H. simpl in H.
  unfold bind at 1 in H. rewrite call_extend in H.
  unfold bind at 1 in H. rewrite call_extend in H.
  apply bind_Val_inv in H. destruct H as ([] & w1 & H1 & H).
  apply for_each_add_constraint_Val in H1. destruct H1 as (k & ->).
  rewrite call_extend in H. inversion H.
  exists k. rewrite !extend_extend. f_equal. lia.
Qed.

End Runs.

(** ** The status switch and the [try] block *)

Section Block.

Variable E : Environment.

Lemma with_logged_nil w : with_logged w [] = w.
Proof. destruct w. unfold with_logged. simpl. rewrite app_nil_r. reflexivity. Qed.

Lemma report_failure lp vars code w :
  code <> 0 ->
  exists reason,
    outcome_of_status code = Failure reason /\
    report E lp vars code w = (Val tt, with_logged w (diagnostic reason)).
Proof.
  intros Hcode. destruct code as [| p | p]; [congruence | |];
    repeat match goal with
           | |- _ => solve [eexists; split; [reflexivity |];
                            simpl; rewrite ?with_logged_nil; reflexivity]
           | q : positive |- _ => destruct q
           end.
Qed.

Lemma report_optimal lp vars w :
  report E lp vars 0 w =
  let n := length vars in
  let cols := Z.to_nat (lp_lib.columns_of lp) in
  match throws E (vector_ops w) with
  | Some e => (Exc e, extend w [] 1)
  | None =>
      if (cols <=? n)%nat
      then (Val tt, with_result (extend w [lp_lib.get_variables] 1)
                      (solution E n (lp_lib.columns_of lp) (result_ w)))
      else (Undefined, with_result (extend w [lp_lib.get_variables] 1)
                         (firstn n (result_ w) ++ repeat 0%R (n - length (result_ w))))
  end.
Proof.
  assert (Hlen : length (firstn (length vars) (result_ w)
                         ++ repeat 0%R (length vars - length (result_ w)))
                 = length vars).
  { rewrite length_app, length_firstn, repeat_length. lia. }
  unfold report, bind, get_result_, resize, bind, vector_op, set_result_,
    get_variables, bind, call, ret, solution, with_result, extend.
  cbn -[firstn skipn repeat Nat.leb Nat.sub].
  destruct (throws E (vector_ops w)) as [e |].
  - rewrite app_nil_r, Nat.add_1_r. reflexivity.
  - cbn -[firstn skipn repeat Nat.leb Nat.sub]. rewrite Hlen.
    destruct (Z.to_nat (lp_lib.columns_of lp) <=? length vars)%nat;
      cbn -[firstn skipn repeat Nat.leb Nat.sub];
      rewrite Nat.add_1_r; reflexivity.
Qed.

Lemma report_Exc lp vars code w e w' :
  report E lp vars code w = (Exc e, w') -> code = 0 /\ w' = extend w [] 1.
Proof.
  intros H. destruct (Z.eq_dec code 0) as [-> | Hcode].
  - split; [reflexivity |]. rewrite report_optimal in H. cbv zeta in H.
    destruct (throws E (vector_ops w)).
    + inversion H. reflexivity.
    + destruct (_ <=? _)%nat; discriminate.
  - destruct (report_failure lp vars code w Hcode) as (reason & _ & Hr).
    rewrite Hr in H. discriminate.
Qed.

Lemma describes_in_use c : describes c -> in_use c.
Proof. destruct c; simpl; intros []; split; reflexivity. Qed.

Lemma emits_populate program lp : emits in_use (populate E program lp).
Proof.
  unfold populate.
  apply emits_bind; [apply emits_call; split; reflexivity | intros _].
  apply emits_bind;
    [apply (emits_weaken describes); [apply describes_in_use |];
     apply emits_create_variables | intros _].
  apply emits_bind;
    [apply (emits_weaken describes); [apply describes_in_use |];
     apply emits_set_objective | intros _].
  apply emits_bind;
    [apply (emits_weaken describes); [apply describes_in_use |];
     apply emits_add_constraints | intros _].
  apply emits_bind; [apply emits_call; split; reflexivity | intros _].
  apply emits_ret.
Qed.

Lemma populate_Val program w code w' :
  populate E program (handle program) w = (Val code, w') ->
  code = status E /\
  exists row k,
    fill (coefficients (objective program))
      (repeat 0%R (length (variables program) + 1)) = Some row /\
    w' = extend w (tl (translation program row)) k.
Proof.
  unfold populate. intros H.
  unfold bind at 1 in H. rewrite call_extend in H.
  unfold bind at 1 in H. rewrite create_variables_run in H.
  apply bind_Val_inv in H. destruct H as ([] & w1 & H1 & H).
  apply set_objective_Val in H1. destruct H1 as (row & Hrow & ->).
  apply bind_Val_inv in H. destruct H as ([] & w2 & H2 & H).
  apply add_constraints_Val in H2. destruct H2 as (k & ->).
  unfold solve, bind in H. rewrite call_extend in H. inversion H.
  split; [reflexivity |]. exists row. eexists. split; [exact Hrow |].
  rewrite !extend_extend. unfold translation, handle. simpl.
  rewrite <- !app_assoc. simpl. reflexivity.
Qed.

Lemma try_block_empty program w :
  variables program = [] ->
  try_block E program w
  = (Val (Some false), with_logged w [cerr "variable set is empty"]).
Proof. unfold try_block. intros ->. reflexivity. Qed.

Lemma try_block_null program w :
  variables program <> [] -> make_lp_null E = true ->
  try_block E program w
  = (Val (Some false),
     with_logged
       (extend w [lp_lib.make_lp 0 (to_int (size (variables program)))] 0)
       [Logger_err "error in creating a LP model"]).
Proof.
  unfold try_block. intros Hvars Hnull.
  destruct (variables program) as [| v vs]; [congruence |].
  unfold make_lp. unfold bind at 1 2. rewrite call_extend. simpl.
  rewrite Hnull. reflexivity.
Qed.

Lemma try_block_created program w :
  variables program <> [] -> make_lp_null E = false ->
  try_block E program w
  = (ret_code <- populate E program (handle program) ;;
     report E (handle program) (variables program) ret_code ;;;
     call lp_lib.delete_lp ;;;
     ret None)
      (extend w [lp_lib.make_lp 0 (to_int (size (variables program)))] 0).
Proof.
  unfold try_block, handle. intros Hvars Hnull.
  destruct (variables program) as [| v vs] eqn:Hv; [congruence |].
  unfold make_lp. unfold bind at 1 2. rewrite call_extend. simpl.
  rewrite Hnull. unfold populate. rewrite Hv.
  unfold bind. simpl.
  destruct (create_variables (v :: vs) _) as [[[] | e |] w1]; try reflexivity.
  destruct (set_objective E (v :: vs) (objective program) w1)
    as [[[] | e |] w2]; try reflexivity.
  destruct (add_constraints E _ (constraints program) w2)
    as [[[] | e |] w3]; reflexivity.
Qed.

(** The three ways out of the [try] block when it neither throws nor runs
    into undefined behaviour. *)
Lemma try_block_completes program w w' :
  try_block E program w = (Val None, w') ->
  variables program <> [] /\ make_lp_null E = false /\
  exists row k w2,
    fill (coefficients (objective program))
      (repeat 0%R (length (variables program) + 1)) = Some row /\
    report E (handle program) (variables program) (status E)
      (extend w (translation program row) k) = (Val tt, w2) /\
    w' = extend w2 [lp_lib.delete_lp] 0.
Proof.
  intros H.
  destruct (variables program) as [| v vs] eqn:Hv.
  { rewrite try_block_empty in H by assumption. discriminate. }
  assert (Hvars : variables program <> []) by (rewrite Hv; discriminate).
  destruct (make_lp_null E) eqn:Hnull.
  { rewrite try_block_null in H by assumption. discriminate. }
  rewrite try_block_created in H by assumption.
  rewrite <- Hv. split; [assumption |]. split; [reflexivity |].
  apply bind_Val_inv in H. destruct H as (code & w1 & H1 & H).
  apply populate_Val in H1. destruct H1 as (-> & row & k & Hrow & ->).
  apply bind_Val_inv in H. destruct H as ([] & w2 & H2 & H).
  unfold bind in H. rewrite call_extend in H. inversion H.
  exists row, k, w2. rewrite extend_extend in H2. simpl in H2.
  split; [exact Hrow |]. split; [exact H2 | reflexivity].
Qed.

(** The way out of the [try] block by an exception: the handle exists and
    no call has released it. *)
Lemma try_block_Exc program w e w' :
  try_block E program w = (Exc e, w') ->
  variables program <> [] /\ make_lp_null E = false /\
  exists tr k,
    w' = extend w (lp_lib.make_lp 0 (to_int (size (variables program))) :: tr) k /\
    Forall in_use tr.
Proof.
  intros H.
  destruct (variables program) as [| v vs] eqn:Hv.
  { rewrite try_block_empty in H by assumption. discriminate. }
  assert (Hvars : variables program <> []) by (rewrite Hv; discriminate).
  destruct (make_lp_null E) eqn:Hnull.
  { rewrite try_block_null in H by assumption. discriminate. }
  rewrite try_block_created in H by assumption.
  rewrite <- Hv. split; [assumption |]. split; [reflexivity |].
  set (w0 := extend w _ 0) in H.
  destruct (emits_populate program (handle program) w0) as (tr & k & Hw & Htr).
  apply bind_Exc_inv in H. destruct H as [H | (code & w1 & H1 & H)].
  - rewrite H in Hw. simpl in Hw. subst w'. unfold w0.
    rewrite extend_extend. exists tr, k. split; [reflexivity | exact Htr].
  - rewrite H1 in Hw. simpl in Hw. subst w1.
    apply bind_Exc_inv in H. destruct H as [H | ([] & w2 & H2 & H)].
    + apply report_Exc in H. destruct H as [_ ->]. unfold w0.
      rewrite !extend_extend, app_nil_r.
      exists tr. eexists. split; [reflexivity | exact Htr].
    + unfold bind in H. rewrite call_extend in H. discriminate.
Qed.

End Block.

(** ** Further facts about complete runs *)

Lemma report_Val E lp vars code w w2 :
  report E lp vars code w = (Val tt, w2) ->
  (code = 0 /\
   w2 = with_result (extend w [lp_lib.get_variables] 1)
          (solution E (length vars) (lp_lib.columns_of lp) (result_ w))) \/
  (code <> 0 /\
   exists reason, outcome_of_status code = Failure reason /\
                  w2 = with_logged w (diagnostic reason)).
Proof.
  intros H. destruct (Z.eq_dec code 0) as [-> | Hcode].
  - left. split; [reflexivity |]. rewrite report_optimal in H. cbv zeta in H.
    destruct (throws E (vector_ops w)); [discriminate |].
    destruct (_ <=? _)%nat; inversion H. reflexivity.
  - right. split; [assumption |].
    destruct (report_failure E lp vars code w Hcode) as (reason & Ho & Hr).
    rewrite Hr in H. inversion H. exists reason. auto.
Qed.

Lemma filter_is_row_variable_calls vars :
  filter is_row (variable_calls vars) = [].
Proof.
  unfold variable_calls. induction (indexed vars) as [| [i var] l IH]; simpl.
  - reflexivity.
  - rewrite filter_app, IH, app_nil_r.
    destruct (Var.variable_type var); reflexivity.
Qed.

Lemma filter_is_row_prescribed_rows cstrs :
  filter is_row (flat_map prescribed_rows cstrs) = flat_map prescribed_rows cstrs.
Proof.
  induction cstrs as [| c cstrs IH]; simpl.
  - reflexivity.
  - rewrite filter_app, IH. f_equal.
    unfold prescribed_rows. destruct (Constraint.bound_type c); reflexivity.
Qed.

Lemma filter_is_row_translation program row :
  filter is_row (translation program row)
  = flat_map prescribed_rows (constraints program).
Proof.
  unfold translation. simpl.
  rewrite filter_app, filter_is_row_variable_calls. simpl.
  rewrite filter_app, filter_is_row_prescribed_rows. simpl.
  apply app_nil_r.
Qed.

(** What a run that reaches the end of the [try] block leaves behind. *)
Lemma completed_run E program r w' :
  try_block E program (initial r) = (Val None, w') ->
  exists row,
    fill (coefficients (objective program))
      (repeat 0%R (length (variables program) + 1)) = Some row /\
    calls w' = translation program row
               ++ (if status E =? 0 then [lp_lib.get_variables] else [])
               ++ [lp_lib.delete_lp] /\
    logged w' = match outcome_of_status (status E) with
                | Success => []
                | Failure reason => diagnostic reason
                end /\
    result_ w' = if status E =? 0
                 then solution E (length (variables program))
                        (to_int (size (variables program))) r
                 else r.
Proof.
  intros H. apply try_block_completes in H.
  destruct H as (_ & _ & row & k & w2 & Hrow & Hreport & ->).
  exists row. split; [exact Hrow |].
  apply report_Val in Hreport.
  destruct Hreport as [[Hcode ->] | (Hcode & reason & Ho & ->)].
  - rewrite Hcode. simpl. rewrite <- app_assoc. auto.
  - rewrite Ho. apply Z.eqb_neq in Hcode. rewrite Hcode. simpl. auto.
Qed.

(** ** Runs in which no vector operation fails *)

Section Fault_free.

Variable E : Environment.
Hypothesis no_fault : forall k, throws E k = None.

Lemma vector_op_fault_free w : vector_op E w = (Val tt, extend w [] 1).
Proof.
  unfold vector_op, extend. rewrite no_fault, app_nil_r, Nat.add_1_r.
  reflexivity.
Qed.

Lemma push_back_fault_free {A} (v : list A) x w :
  push_back E v x w = (Val (v ++ [x]), extend w [] 1).
Proof.
  unfold push_back, bind. rewrite vector_op_fault_free. reflexivity.
Qed.

Lemma pairs_fault_free (entries : list (Z * double)) :
  forall (colno : list Z) (sparserow : list double) w,
  fold_each entries
    (fun '(colno, sparserow) '(var_idx, coeff) =>
       colno <- push_back E colno (to_int (size_t_add var_idx 1)) ;;
       sparserow <- push_back E sparserow coeff ;;
       ret (colno, sparserow))
    (colno, sparserow) w
  = (Val (colno ++ map (fun e => column_of (fst e)) entries,
          sparserow ++ map snd entries),
     extend w [] (2 * length entries)).
Proof.
  induction entries as [| [var_idx coeff] rest IH]; intros colno sparserow w; simpl.
  - unfold ret. rewrite !app_nil_r, extend_nil. reflexivity.
  - unfold bind at 1 2. rewrite push_back_fault_free.
    unfold bind at 1. rewrite push_back_fault_free.
    unfold ret at 1. rewrite IH, !extend_extend, <- !app_assoc. simpl.
    do 2 f_equal. lia.
Qed.

Lemma add_constraint_fault_free cstr w :
  add_constraint E cstr w
  = (Val tt, extend w (prescribed_rows cstr)
               (2 * length (Constraint.coefficients cstr))).
Proof.
  destruct (add_constraint E cstr w) as [r w'] eqn:H.
  assert (Hr : r = Val tt).
  { unfold add_constraint, bind in H. rewrite pairs_fault_free in H.
    destruct (Constraint.bound_type cstr); inversion H; reflexivity. }
  subst r. apply add_constraint_Val in H. rewrite H. reflexivity.
Qed.

Lemma set_objective_fault_free vars obj w row :
  fill (coefficients obj) (repeat 0%R (length vars + 1)) = Some row ->
  set_objective E vars obj w = (Val tt, extend w [lp_lib.set_obj_fn row] 1).
Proof.
  intros Hrow. unfold set_objective, vector_fill.
  unfold bind at 1 2. rewrite vector_op_fault_free.
  unfold ret at 1. unfold bind at 1. rewrite fill_run, Hrow.
  rewrite call_extend, extend_extend. reflexivity.
Qed.

End Fault_free.

(** ** Machine integers in range *)

Lemma to_int_small z : 0 <= z <= INT_MAX -> to_int z = z.
Proof.
  unfold to_int, INT_MAX. change (2 ^ 31) with 2147483648.
  change (2 ^ 32) with 4294967296. intros Hz.
  rewrite Z.mod_small; lia.
Qed.

Lemma size_t_add_small k : 0 <= k < INT_MAX -> size_t_add k 1 = k + 1.
Proof.
  unfold size_t_add, INT_MAX. change (2 ^ 31) with 2147483648.
  change (2 ^ 64) with 18446744073709551616. intros Hk.
  rewrite Z.mod_small; lia.
Qed.

Lemma column_of_small k : 0 <= k < INT_MAX -> column_of k = k + 1.
Proof.
  intros Hk. unfold column_of. rewrite size_t_add_small by assumption.
  apply to_int_small. lia.
Qed.

(** ** Sums over coefficient maps *)

Lemma map_sum_Permutation entries order x :
  Permutation entries order -> map_sum entries x = map_sum order x.
Proof.
  induction 1 as [| [k c] l l' _ IH | [k c] [k' c'] l | l l' l'' _ IH1 _ IH2];
    simpl.
  - reflexivity.
  - rewrite IH. reflexivity.
  - ring.
  - congruence.
Qed.

Lemma coefficient_map_Permutation n entries order :
  Permutation entries order -> coefficient_map n entries -> coefficient_map n order.
Proof.
  intros Hperm [Hnodup Hrange]. unfold coefficient_map, keys in *.
  pose proof (Permutation_map fst Hperm) as Hkeys. split.
  - eapply Permutation_NoDup; eassumption.
  - eapply Permutation_Forall; eassumption.
Qed.

Lemma coefficient_map_length n entries :
  0 <= n -> coefficient_map n entries -> size entries <= n.
Proof.
  intros Hn [Hnodup Hrange]. unfold size, keys in *.
  assert (Hincl : incl (map fst entries) (map Z.of_nat (seq 0 (Z.to_nat n)))).
  { intros k Hk. rewrite Forall_forall in Hrange. specialize (Hrange k Hk).
    replace k with (Z.of_nat (Z.to_nat k)) by lia.
    apply in_map, in_seq. lia. }
  apply NoDup_incl_length in Hincl; [| assumption].
  rewrite !length_map, length_seq in Hincl. lia.
Qed.

Lemma store_Some v : forall i c, (i < length v)%nat -> exists v', store v i c = Some v'.
Proof.
  induction v as [| y v IH]; intros i c Hi; simpl in *.
  - lia.
  - destruct i as [| i].
    + eexists. reflexivity.
    + destruct (IH i c) as (v' & Hv'); [lia |]. rewrite Hv'. simpl.
      eexists. reflexivity.
Qed.

Lemma store_length v : forall i c v', store v i c = Some v' -> length v' = length v.
Proof.
  induction v as [| y v IH]; intros i c v' H; simpl in H.
  - discriminate.
  - destruct i as [| i].
    + inversion H. reflexivity.
    + destruct (store v i c) as [v1 |] eqn:H1; inversion H.
      simpl. f_equal. eapply IH. eassumption.
Qed.

Lemma store_nth v : forall i c v' j,
  store v i c = Some v' -> j <> i -> nth j v' 0%R = nth j v 0%R.
Proof.
  induction v as [| y v IH]; intros i c v' j H Hj; simpl in H.
  - discriminate.
  - destruct i as [| i].
    + inversion H. destruct j; [congruence | reflexivity].
    + destruct (store v i c) as [v1 |] eqn:H1; inversion H.
      destruct j as [| j]; [reflexivity |]. simpl.
      eapply IH; [eassumption | congruence].
Qed.

Lemma dense_sum_store x cols : forall first i c cols',
  store cols i c = Some cols' ->
  dense_sum first cols' x
  = (dense_sum first cols x + (c - nth i cols 0) * x (first + Z.of_nat i)%Z)%R.
Proof.
  induction cols as [| y cols IH]; intros first i c cols' H; simpl in H.
  - discriminate.
  - destruct i as [| i].
    + inversion H. simpl. rewrite Z.add_0_r. ring.
    + destruct (store cols i c) as [v1 |] eqn:H1; inversion H.
      simpl dense_sum. rewrite (IH (first + 1) i c v1 H1).
      replace (first + 1 + Z.of_nat i) with (first + Z.of_nat (S i)) by lia.
      simpl nth. ring.
Qed.

Lemma dense_sum_zero x n : forall first, dense_sum first (repeat 0%R n) x = 0%R.
Proof.
  induction n as [| n IH]; intros first; simpl.
  - reflexivity.
  - rewrite IH. ring.
Qed.

Lemma fill_sum x n entries : forall r0 cols,
  coefficient_map n entries -> n <= INT_MAX -> size cols = n ->
  (forall k, In k (keys entries) -> nth (Z.to_nat k) cols 0%R = 0%R) ->
  exists cols',
    fill entries (r0 :: cols) = Some (r0 :: cols') /\
    dense_sum 0 cols' x = (dense_sum 0 cols x + map_sum entries x)%R.
Proof.
  unfold size.
  induction entries as [| [k c] rest IH]; intros r0 cols [Hnodup Hrange] Hn Hlen Hzero.
  - exists cols. simpl. split; [reflexivity | ring].
  - unfold keys in *. simpl in *.
    inversion Hnodup as [| ? ? Hnotin Hnodup']. subst.
    inversion Hrange as [| ? ? Hk Hrange']. subst.
    rewrite size_t_add_small by lia.
    replace (Z.to_nat (k + 1)) with (S (Z.to_nat k)) by lia. simpl.
    destruct (store_Some cols (Z.to_nat k) c) as (cols1 & Hstore); [lia |].
    rewrite Hstore. simpl.
    destruct (IH r0 cols1) as (cols' & Hfill & Hsum).
    + unfold coefficient_map, keys. split; assumption.
    + assumption.
    + rewrite (store_length _ _ _ _ Hstore). reflexivity.
    + intros k' Hk'. rewrite (store_nth _ _ _ _ (Z.to_nat k') Hstore).
      * apply Hzero. right. assumption.
      * rewrite Forall_forall in Hrange'. specialize (Hrange' k' Hk').
        intros Heq. apply Hnotin.
        replace k with k' by lia. assumption.
    + exists cols'. split; [exact Hfill |].
      rewrite Hsum, (dense_sum_store x cols 0 (Z.to_nat k) c cols1 Hstore).
      rewrite (Hzero k) by (left; reflexivity).
      replace (0 + Z.of_nat (Z.to_nat k)) with k by lia. ring.
Qed.

(** The objective row of a coefficient map evaluates to the sum of the map. *)
Lemma fill_objective_value x (vars : list Var.t) entries :
  coefficient_map (size vars) entries -> size vars <= INT_MAX ->
  exists row,
    fill entries (repeat 0%R (length vars + 1)) = Some row /\
    objective_value row x = map_sum entries x.
Proof.
  intros Hmap Hn. rewrite Nat.add_1_r. simpl repeat.
  destruct (fill_sum x (size vars) entries 0%R (repeat 0%R (length vars)))
    as (cols' & Hfill & Hsum).
  - assumption.
  - assumption.
  - unfold size. rewrite repeat_length. reflexivity.
  - intros k _. apply nth_repeat.
  - exists (0%R :: cols'). split; [exact Hfill |].
    unfold objective_value. simpl. rewrite Hsum, dense_sum_zero. ring.
Qed.

Lemma combine_columns entries :
  Forall (fun k => 0 <= k < INT_MAX) (keys entries) ->
  combine (map (fun j => j - 1) (map (fun e => column_of (fst e)) entries))
    (map snd entries) = entries.
Proof.
  unfold keys. induction entries as [| [k c] rest IH]; intros H; simpl.
  - reflexivity.
  - inversion H as [| ? ? Hk Hrest]. subst. simpl in Hk.
    rewrite IH by assumption. rewrite column_of_small by assumption.
    replace (k + 1 - 1) with k by lia. reflexivity.
Qed.

(** The rows of a constraint evaluate to the sum of its coefficient map. *)
Lemma prescribed_rows_value x n cstr :
  coefficient_map n (Constraint.coefficients cstr) -> 0 <= n <= INT_MAX ->
  Forall (row_sums_to x (map_sum (Constraint.coefficients cstr) x))
    (prescribed_rows cstr).
Proof.
  intros Hmap Hn.
  assert (Hvalue : row_value (to_int (size (Constraint.coefficients cstr)))
             (map snd (Constraint.coefficients cstr))
             (map (fun e => column_of (fst e)) (Constraint.coefficients cstr)) x
           = map_sum (Constraint.coefficients cstr) x).
  { unfold row_value. rewrite combine_columns.
    - pose proof (coefficient_map_length n _ (proj1 Hn) Hmap) as Hlen.
      rewrite to_int_small by (unfold size in *; lia).
      unfold size. rewrite Nat2Z.id, firstn_all. reflexivity.
    - destruct Hmap as [_ Hrange].
      eapply Forall_impl; [| exact Hrange]. simpl. intros k Hk. lia. }
  unfold prescribed_rows.
  destruct (Constraint.bound_type cstr); repeat constructor; exact Hvalue.
Qed.

(** ** The whole call *)

Lemma solve_of_block_Val E program w returned w1 :
  try_block E program w = (Val returned, w1) ->
  _solve_LPSOLVE E program w
  = (Val match returned with Some b => b | None => false end, w1).
Proof.
  intros H. unfold _solve_LPSOLVE, try_catch, bind. rewrite H.
  destruct returned; reflexivity.
Qed.

Lemma solve_of_block_Exc E program w e w1 :
  try_block E program w = (Exc e, w1) ->
  _solve_LPSOLVE E program w = (Val false, with_logged w1 [handler_line E e]).
Proof.
  intros H. unfold _solve_LPSOLVE, try_catch, bind. rewrite H.
  destruct e; reflexivity.
Qed.

Lemma solve_of_block_Undefined E program w w1 :
  try_block E program w = (Undefined, w1) ->
  _solve_LPSOLVE E program w = (Undefined, w1).
Proof.
  intros H. unfold _solve_LPSOLVE, try_catch, bind. rewrite H. reflexivity.
Qed.

(** The two early returns. *)
Lemma try_block_returns E program w b w' :
  try_block E program w = (Val (Some b), w') ->
  b = false /\
  ((variables program = [] /\
    w' = with_logged w [cerr "variable set is empty"]) \/
   (variables program <> [] /\ make_lp_null E = true /\
    w' = with_logged
           (extend w [lp_lib.make_lp 0 (to_int (size (variables program)))] 0)
           [Logger_err "error in creating a LP model"])).
Proof.
  intros H.
  destruct (variables program) as [| v vs] eqn:Hv.
  { rewrite try_block_empty in H by assumption. inversion H. auto. }
  assert (Hvars : variables program <> []) by (rewrite Hv; discriminate).
  rewrite <- Hv.
  destruct (make_lp_null E) eqn:Hnull.
  { rewrite try_block_null in H by assumption. inversion H. auto. }
  rewrite try_block_created in H by assumption.
  apply bind_Val_inv in H. destruct H as (code & w1 & _ & H).
  apply bind_Val_inv in H. destruct H as ([] & w2 & _ & H).
  unfold bind in H. rewrite call_extend in H. discriminate.
Qed.

Lemma in_use_variable_calls vars : Forall in_use (variable_calls vars).
Proof.
  unfold variable_calls. induction (indexed vars) as [| [i var] l IH]; simpl.
  - constructor.
  - apply Forall_app. split; [| exact IH].
    destruct (Var.variable_type var); repeat constructor.
Qed.

Lemma in_use_prescribed_rows cstrs : Forall in_use (flat_map prescribed_rows cstrs).
Proof.
  induction cstrs as [| c cstrs IH]; simpl.
  - constructor.
  - apply Forall_app. split; [| exact IH].
    unfold prescribed_rows.
    destruct (Constraint.bound_type c); repeat constructor.
Qed.

Lemma in_use_translation program row : Forall in_use (translation program row).
Proof.
  unfold translation.
  repeat first [ apply Forall_app; split
               | apply in_use_variable_calls
               | apply in_use_prescribed_rows
               | apply Forall_cons; [split; reflexivity |]
               | apply Forall_nil ].
Qed.

Lemma in_use_releases tr : Forall in_use tr -> releases tr = 0%nat.
Proof.
  unfold releases. induction 1 as [| c tr [Hc _] _ IH]; simpl.
  - reflexivity.
  - rewrite Hc. exact IH.
Qed.

Lemma releases_app tr1 tr2 : releases (tr1 ++ tr2) = (releases tr1 + releases tr2)%nat.
Proof. unfold releases. rewrite filter_app, length_app. reflexivity. Qed.

Lemma in_use_no_bounds tr :
  Forall in_use tr -> Forall (fun c => registers_bounds c = false) tr.
Proof. apply Forall_impl. intros c [_ Hc]. exact Hc. Qed.

(** In a run that reaches the end of the [try] block the handle is
    released once. *)
Lemma completed_run_releases_once E program r w' :
  try_block E program (initial r) = (Val None, w') ->
  releases (calls w') = 1%nat.
Proof.
  intros H. apply completed_run in H. destruct H as (row & _ & -> & _).
  rewrite !releases_app, (in_use_releases _ (in_use_translation program row)).
  destruct (status E =? 0); reflexivity.
Qed.

(** ** The loop over the variables *)

Lemma in_indexed_from {A} (l : list A) : forall s z a,
  In (z, a) (combine (map Z.of_nat (seq s (length l))) l) <->
  exists i, z = Z.of_nat (s + i) /\ nth_error l i = Some a.
Proof.
  induction l as [| y l IH]; intros s z a; simpl.
  - split; [intros [] | intros ([| i] & _ & Hi); discriminate].
  - rewrite IH. split.
    + intros [H | (i & -> & Hi)].
      * inversion H. subst. exists 0%nat. rewrite Nat.add_0_r. auto.
      * exists (S i). split; [f_equal; lia | exact Hi].
    + intros ([| i] & -> & Hi); simpl in Hi.
      * left. inversion Hi. rewrite Nat.add_0_r. reflexivity.
      * right. exists i. split; [f_equal; lia | exact Hi].
Qed.

Lemma in_indexed {A} (l : list A) z a :
  In (z, a) (indexed l) <-> exists i, z = Z.of_nat i /\ nth_error l i = Some a.
Proof. unfold indexed. rewrite in_indexed_from. reflexivity. Qed.

Lemma in_variable_calls_set_int vars column :
  In (lp_lib.set_int column TRUE) (variable_calls vars) <->
  exists i var, nth_error vars i = Some var /\
                Var.variable_type var = Var.INTEGER /\
                column = to_int (Z.of_nat i).
Proof.
  unfold variable_calls. rewrite in_flat_map. split.
  - intros ([z var] & Hin & Hc). apply in_indexed in Hin.
    destruct Hin as (i & -> & Hi). exists i, var.
    destruct (Var.variable_type var); simpl in Hc;
      try contradiction; destruct Hc as [Hc | []]; inversion Hc. auto.
  - intros (i & var & Hi & Hkind & ->). exists (Z.of_nat i, var). split.
    + apply in_indexed. exists i. auto.
    + rewrite Hkind. left. reflexivity.
Qed.

Lemma in_variable_calls_set_binary vars column :
  In (lp_lib.set_binary column TRUE) (variable_calls vars) <->
  exists i var, nth_error vars i = Some var /\
                Var.variable_type var = Var.BINARY /\
                column = to_int (Z.of_nat i).
Proof.
  unfold variable_calls. rewrite in_flat_map. split.
  - intros ([z var] & Hin & Hc). apply in_indexed in Hin.
    destruct Hin as (i & -> & Hi). exists i, var.
    destruct (Var.variable_type var); simpl in Hc;
      try contradiction; destruct Hc as [Hc | []]; inversion Hc. auto.
  - intros (i & var & Hi & Hkind & ->). exists (Z.of_nat i, var). split.
    + apply in_indexed. exists i. auto.
    + rewrite Hkind. left. reflexivity.
Qed.

Lemma filter_is_mark_variable_calls vars :
  filter is_mark (variable_calls vars) = variable_calls vars.
Proof.
  unfold variable_calls. induction (indexed vars) as [| [i var] l IH]; simpl.
  - reflexivity.
  - rewrite filter_app, IH. f_equal.
    destruct (Var.variable_type var); reflexivity.
Qed.

Lemma filter_is_mark_prescribed_rows cstrs :
  filter is_mark (flat_map prescribed_rows cstrs) = [].
Proof.
  induction cstrs as [| c cstrs IH]; simpl.
  - reflexivity.
  - rewrite filter_app, IH, app_nil_r.
    unfold prescribed_rows. destruct (Constraint.bound_type c); reflexivity.
Qed.

Lemma filter_is_mark_translation program row :
  filter is_mark (translation program row) = variable_calls (variables program).
Proof.
  unfold translation. simpl.
  rewrite filter_app, filter_is_mark_variable_calls. simpl.
  rewrite filter_app, filter_is_mark_prescribed_rows. simpl.
  apply app_nil_r.
Qed.

(** The rows of a run that reaches the end of the [try] block. *)
Lemma completed_run_rows E program r w' :
  try_block E program (initial r) = (Val None, w') ->
  filter is_row (calls w') = flat_map prescribed_rows (constraints program).
Proof.
  intros H. apply completed_run in H.
  destruct H as (row & _ & Hcalls & _). rewrite Hcalls.
  rewrite !filter_app, filter_is_row_translation.
  destruct (status E =? 0); simpl; apply app_nil_r.
Qed.

(** ** Runs that reach the end of the [try] block *)

Lemma fill_Some entries : forall row,
  Forall (fun e => (subscript e < length row)%nat) entries ->
  exists row', fill entries row = Some row' /\ length row' = length row.
Proof.
  induction entries as [| [k c] rest IH]; intros row Hin; simpl.
  - exists row. auto.
  - inversion Hin as [| ? ? Hk Hrest]. subst. unfold subscript in Hk. simpl in Hk.
    destruct (store_Some row _ c Hk) as (row1 & Hstore). rewrite Hstore.
    pose proof (store_length _ _ _ _ Hstore) as Hlen.
    destruct (IH row1) as (row' & Hfill & Hlen').
    + rewrite Hlen. exact Hrest.
    + exists row'. split; [exact Hfill | congruence].
Qed.

Lemma to_int_le z : 0 <= z -> to_int z <= z.
Proof.
  intros Hz. unfold to_int. change (2 ^ 31) with 2147483648.
  change (2 ^ 32) with 4294967296.
  pose proof (Z.mod_le (z + 2147483648) 4294967296). lia.
Qed.

Lemma handle_columns program :
  (Z.to_nat (lp_lib.columns_of (handle program)) <= length (variables program))%nat.
Proof.
  unfold handle, size. simpl.
  pose proof (to_int_le (Z.of_nat (length (variables program)))). lia.
Qed.

Section Fault_free_runs.

Variable E : Environment.
Hypothesis no_fault : forall k, throws E k = None.

Lemma for_each_add_constraint_fault_free cstrs : forall w,
  exists k,
    for_each cstrs (add_constraint E) w
    = (Val tt, extend w (flat_map prescribed_rows cstrs) k).
Proof.
  induction cstrs as [| cstr rest IH]; intros w; simpl.
  - exists 0%nat. unfold ret. rewrite extend_nil. reflexivity.
  - unfold bind. rewrite (add_constraint_fault_free E no_fault).
    destruct (IH (extend w (prescribed_rows cstr)
                    (2 * length (Constraint.coefficients cstr)))) as (k & ->).
    eexists. rewrite extend_extend. reflexivity.
Qed.

Lemma populate_fault_free program row w :
  fill (coefficients (objective program))
    (repeat 0%R (length (variables program) + 1)) = Some row ->
  exists k,
    populate E program (handle program) w
    = (Val (status E), extend w (tl (translation program row)) k).
Proof.
  intros Hrow.
  destruct (populate E program (handle program) w) as [res w1] eqn:Hpop.
  assert (Hres : exists code, res = Val code).
  { unfold populate in Hpop. unfold bind at 1 in Hpop.
    rewrite call_extend in Hpop. unfold bind at 1 in Hpop.
    rewrite create_variables_run in Hpop. unfold bind at 1 in Hpop.
    rewrite (set_objective_fault_free E no_fault _ _ _ row Hrow) in Hpop.
    unfold bind at 1, add_constraints, get_Ncolumns in Hpop.
    unfold bind at 1 2 in Hpop. rewrite call_extend in Hpop.
    unfold ret at 1 in Hpop. unfold bind at 1 in Hpop.
    rewrite call_extend in Hpop. unfold bind at 1 in Hpop.
    rewrite call_extend in Hpop. unfold bind at 1 in Hpop.
    match type of Hpop with
    | context [for_each _ _ ?W] =>
        destruct (for_each_add_constraint_fault_free
                    (constraints program) W) as (k & Hk)
    end.
    rewrite Hk in Hpop. rewrite call_extend in Hpop.
    unfold solve, bind in Hpop. rewrite call_extend in Hpop.
    inversion Hpop. eexists. reflexivity. }
  destruct Hres as (code & ->).
  apply populate_Val in Hpop. destruct Hpop as (-> & row' & k & Hrow' & ->).
  rewrite Hrow in Hrow'. inversion Hrow'. subst. exists k. reflexivity.
Qed.

Lemma report_fault_free program code w :
  exists w2,
    report E (handle program) (variables program) code w = (Val tt, w2).
Proof.
  destruct (Z.eq_dec code 0) as [-> | Hcode].
  - rewrite report_optimal. cbv zeta. rewrite no_fault.
    pose proof (handle_columns program) as Hcols.
    apply Nat.leb_le in Hcols. rewrite Hcols. eexists. reflexivity.
  - destruct (report_failure E (handle program) (variables program) code w Hcode)
      as (reason & _ & ->). eexists. reflexivity.
Qed.

Lemma try_block_fault_free program w :
  variables program <> [] ->
  make_lp_null E = false ->
  Forall (fun e => (subscript e <= length (variables program))%nat)
    (coefficients (objective program)) ->
  exists w', try_block E program w = (Val None, w').
Proof.
  intros Hvars Hnull Hin.
  destruct (fill_Some (coefficients (objective program))
              (repeat 0%R (length (variables program) + 1))) as (row & Hrow & _).
  { rewrite repeat_length. eapply Forall_impl; [| exact Hin].
    simpl. intros e He. lia. }
  rewrite try_block_created by assumption.
  set (w0 := extend w _ 0).
  destruct (populate_fault_free program row w0 Hrow) as (k & Hpop).
  destruct (report_fault_free program (status E)
              (extend w0 (tl (translation program row)) k)) as (w2 & Hreport).
  unfold bind at 1. rewrite Hpop.
  unfold bind at 1. rewrite Hreport.
  unfold bind. rewrite call_extend. eexists. reflexivity.
Qed.

End Fault_free_runs.

(** * The claims *)

(** C4.  A program without variables: the call returns [false] after
    writing "variable set is empty" to the error stream, and the trace of
    library calls is empty: no handle is created, no solve is attempted. *)
Theorem empty_model_makes_no_engine_call E program r :
  variables program = [] ->
  _solve_LPSOLVE E program (initial r)
  = (Val false, {| calls := []; logged := [cerr "variable set is empty"];
                   result_ := r; vector_ops := 0 |}).
Proof.
  intros Hvars. unfold _solve_LPSOLVE, try_catch, bind.
  rewrite (try_block_empty E program _ Hvars). reflexivity.
Qed.

Lemma empty_model_makes_no_engine_call_witness :
  _solve_LPSOLVE (engine 0 1%R) empty_program (initial [2%R])
  = (Val false, {| calls := []; logged := [cerr "variable set is empty"];
                   result_ := [2%R]; vector_ops := 0 |}).
Proof.
  apply (empty_model_makes_no_engine_call (engine 0 1%R) empty_program [2%R]).
  reflexivity.
Defined.

Lemma diagnostic_injective r1 r2 : diagnostic r1 = diagnostic r2 -> r1 = r2.
Proof. destruct r1, r2; simpl; intros H; congruence. Qed.

(** C5.  The switch over a status code other than 0 returns normally
    (no exception, no undefined behaviour) and does nothing but write the
    line of the failure that the table of section 4.3 gives for the code;
    the line determines the failure; each of the ten listed codes has a
    failure of its own, and every other code is [Unknown], which writes
    nothing. *)
Theorem status_code_maps_to_one_failure E lp vars code w :
  code <> 0 ->
  exists reason,
    outcome_of_status code = Failure reason /\
    report E lp vars code w = (Val tt, with_logged w (diagnostic reason)) /\
    (forall reason', diagnostic reason' = diagnostic reason -> reason' = reason) /\
    (reason = Unknown <-> ~ listed_status code) /\
    (forall code', outcome_of_status code' = Failure reason ->
                   listed_status code -> code' = code).
Proof.
  intros Hcode.
  destruct (report_failure E lp vars code w Hcode) as (reason & Ho & Hr).
  exists reason. split; [exact Ho |]. split; [exact Hr |].
  split; [intros r' Hr'; apply diagnostic_injective; exact Hr' |].
  unfold listed_status. split.
  - split.
    + intros -> Hin. simpl in Hin.
      repeat (destruct Hin as [<- | Hin]; [discriminate Ho |]). exact Hin.
    + intros Hnot.
      destruct code as [| p | p]; [congruence | |];
        repeat match goal with
               | |- _ => solve [simpl in Ho; congruence]
               | |- _ => solve [exfalso; apply Hnot; simpl; tauto]
               | q : positive |- _ => destruct q
               end.
  - intros code' Ho' Hin. simpl in Hin.
    repeat (destruct Hin as [<- | Hin];
            [simpl in Ho; injection Ho as <-;
             destruct code' as [| p | p]; [discriminate Ho' | |];
             repeat match goal with
                    | |- _ => solve [reflexivity | discriminate Ho']
                    | q : positive |- _ => destruct q
                    end |]).
    contradiction.
Qed.

Lemma status_code_maps_to_one_failure_witness :
  exists reason,
    outcome_of_status 2 = Failure reason /\
    report (engine 2 0%R) (handle (fixed_program Var.CONTINUOUS))
      (variables (fixed_program Var.CONTINUOUS)) 2 (initial [])
    = (Val tt, with_logged (initial []) (diagnostic reason)) /\
    (forall reason', diagnostic reason' = diagnostic reason -> reason' = reason) /\
    (reason = Unknown <-> ~ listed_status 2) /\
    (forall code', outcome_of_status code' = Failure reason ->
                   listed_status 2 -> code' = 2).
Proof.
  apply (status_code_maps_to_one_failure (engine 2 0%R)
           (handle (fixed_program Var.CONTINUOUS))
           (variables (fixed_program Var.CONTINUOUS)) 2 (initial [])).
  discriminate.
Defined.

(** C6.  The rows follow the bound kind of the constraints.  Take a
    program with at least one variable whose objective subscripts stay
    within the objective row, a library that creates the handle, and a run
    in which no vector operation fails.  Then
    - the body of the loop returns normally for every constraint, having
      added exactly the rows prescribed for its bound kind: one [EQ rhs]
      row for FIXED, one [GE rhs] row for LOWER, one [LE rhs] row for
      UPPER, and for DOUBLE a [GE lower] row followed by an [LE upper] row
      on the same columns and coefficients;
    - the [try] block runs to its end, and the rows added to the problem
      are these rows, constraint after constraint in the order of the
      program.
    Moreover, whatever the library answers and whichever vector operation
    fails, a run that reaches the end of the [try] block has added exactly
    these rows in this order. *)
Theorem constraint_rows_follow_bound_kind E program r :
  (forall k, throws E k = None) ->
  variables program <> [] ->
  make_lp_null E = false ->
  Forall (fun e => (subscript e <= length (variables program))%nat)
    (coefficients (objective program)) ->
  (forall cstr w,
     add_constraint E cstr w
     = (Val tt, extend w (prescribed_rows cstr)
                  (2 * length (Constraint.coefficients cstr)))) /\
  (exists w',
     try_block E program (initial r) = (Val None, w') /\
     filter is_row (calls w') = flat_map prescribed_rows (constraints program)) /\
  (forall E' w',
     try_block E' program (initial r) = (Val None, w') ->
     filter is_row (calls w') = flat_map prescribed_rows (constraints program)).
Proof.
  intros Hfault Hvars Hnull Hin. split; [| split].
  - intros cstr w. apply add_constraint_fault_free. exact Hfault.
  - destruct (try_block_fault_free E Hfault program (initial r) Hvars Hnull Hin)
      as (w' & Hrun).
    exists w'. split; [exact Hrun |].
    apply completed_run in Hrun.
    destruct Hrun as (row & _ & Hcalls & _). rewrite Hcalls.
    rewrite !filter_app, filter_is_row_translation.
    destruct (status E =? 0); simpl; apply app_nil_r.
  - intros E' w' Hrun. apply completed_run in Hrun.
    destruct Hrun as (row & _ & Hcalls & _). rewrite Hcalls.
    rewrite !filter_app, filter_is_row_translation.
    destruct (status E' =? 0); simpl; apply app_nil_r.
Qed.

Lemma constraint_rows_follow_bound_kind_witness :
  (forall cstr w,
     add_constraint (engine 0 1%R) cstr w
     = (Val tt, extend w (prescribed_rows cstr)
                  (2 * length (Constraint.coefficients cstr)))) /\
  (exists w',
     try_block (engine 0 1%R) all_kinds_program (initial []) = (Val None, w') /\
     filter is_row (calls w')
     = [lp_lib.add_constraintex 1 [1%R] [1] lp_lib.EQ 5%R;
        lp_lib.add_constraintex 1 [1%R] [2] lp_lib.GE 1%R;
        lp_lib.add_constraintex 2 [1%R; 1%R] [1; 2] lp_lib.LE 8%R;
        lp_lib.add_constraintex 2 [1%R; 2%R] [1; 2] lp_lib.GE 1%R;
        lp_lib.add_constraintex 2 [1%R; 2%R] [1; 2] lp_lib.LE 4%R]) /\
  (forall E' w',
     try_block E' all_kinds_program (initial []) = (Val None, w') ->
     filter is_row (calls w')
     = [lp_lib.add_constraintex 1 [1%R] [1] lp_lib.EQ 5%R;
        lp_lib.add_constraintex 1 [1%R] [2] lp_lib.GE 1%R;
        lp_lib.add_constraintex 2 [1%R; 1%R] [1; 2] lp_lib.LE 8%R;
        lp_lib.add_constraintex 2 [1%R; 2%R] [1; 2] lp_lib.GE 1%R;
        lp_lib.add_constraintex 2 [1%R; 2%R] [1; 2] lp_lib.LE 4%R]).
Proof.
  apply (constraint_rows_follow_bound_kind (engine 0 1%R) all_kinds_program []).
  - reflexivity.
  - discriminate.
  - reflexivity.
  - repeat constructor.
Defined.

(** C7.  Coefficient preservation.  Take a coefficient map [entries] of a
    program whose number of variables fits an [int], any order [order] in
    which the map may be iterated, and any assignment [x].  In a run in
    which no vector operation fails, the objective row built from [order]
    is handed to the library and evaluates to the sum of the map, and every
    row added for a constraint with these coefficients evaluates to the sum
    of the map. *)
Theorem translation_preserves_coefficients E (vars : list Var.t) entries order x :
  coefficient_map (size vars) entries ->
  size vars <= INT_MAX ->
  Permutation entries order ->
  (forall k, throws E k = None) ->
  (forall w, exists row,
     set_objective E vars {| coefficients := order |} w
     = (Val tt, extend w [lp_lib.set_obj_fn row] 1) /\
     objective_value row x = map_sum entries x) /\
  (forall cstr w,
     Constraint.coefficients cstr = order ->
     add_constraint E cstr w
     = (Val tt, extend w (prescribed_rows cstr) (2 * length order)) /\
     Forall (row_sums_to x (map_sum entries x)) (prescribed_rows cstr)).
Proof.
  intros Hmap Hn Hperm Hfault.
  pose proof (coefficient_map_Permutation _ _ _ Hperm Hmap) as Hmap'.
  rewrite (map_sum_Permutation _ _ x Hperm). split.
  - intros w.
    destruct (fill_objective_value x vars order Hmap' Hn) as (row & Hfill & Hsum).
    exists row. split; [| exact Hsum].
    apply set_objective_fault_free; assumption.
  - intros cstr w <-. split.
    + apply add_constraint_fault_free. assumption.
    + apply (prescribed_rows_value x (size vars)); [assumption |].
      unfold size in *. lia.
Qed.

Lemma translation_preserves_coefficients_witness :
  let vars := variables (two_variable_program Constraint.DOUBLE) in
  let entries := [(0, 1%R); (1, 2%R)] in
  let order := [(1, 2%R); (0, 1%R)] in
  let x := fun k : Z => IZR (k + 3) in
  (forall w, exists row,
     set_objective (engine 0 1%R) vars {| coefficients := order |} w
     = (Val tt, extend w [lp_lib.set_obj_fn row] 1) /\
     objective_value row x = map_sum entries x) /\
  (forall cstr w,
     Constraint.coefficients cstr = order ->
     add_constraint (engine 0 1%R) cstr w
     = (Val tt, extend w (prescribed_rows cstr) (2 * length order)) /\
     Forall (row_sums_to x (map_sum entries x)) (prescribed_rows cstr)).
Proof.
  apply (translation_preserves_coefficients (engine 0 1%R)
           (variables (two_variable_program Constraint.DOUBLE))
           [(0, 1%R); (1, 2%R)] [(1, 2%R); (0, 1%R)]
           (fun k : Z => IZR (k + 3))).
  - split.
    + repeat constructor; simpl; intuition discriminate.
    + repeat constructor; simpl; lia.
  - vm_compute. intros H. discriminate H.
  - apply perm_swap.
  - reflexivity.
Defined.

(** C10.  A constraint whose bound kind the [switch] does not name.  When
    no vector operation fails, the body of the loop returns normally for
    it, having added no row and written nothing.  In a run that reaches
    the end of the [try] block the rows added are those of the other
    constraints, those after the skipped one included; the log holds the
    line of the status code and nothing else, [result_] is what the status
    code alone makes it, and the call returns as it always does. *)
Theorem unnamed_bound_kind_is_skipped E program before cstr after r w' :
  constraints program = before ++ cstr :: after ->
  Constraint.bound_type cstr = Constraint.OTHER ->
  try_block E program (initial r) = (Val None, w') ->
  ((forall k, throws E k = None) ->
   forall w, exists k, add_constraint E cstr w = (Val tt, extend w [] k)) /\
  filter is_row (calls w')
  = flat_map prescribed_rows before ++ flat_map prescribed_rows after /\
  logged w' = match outcome_of_status (status E) with
              | Success => []
              | Failure reason => diagnostic reason
              end /\
  result_ w' = (if status E =? 0
                then solution E (length (variables program))
                       (to_int (size (variables program))) r
                else r) /\
  _solve_LPSOLVE E program (initial r) = (Val false, w').
Proof.
  intros Hcstrs Hkind Hrun.
  assert (Hnone : prescribed_rows cstr = []).
  { unfold prescribed_rows. rewrite Hkind. reflexivity. }
  split.
  { intros Hfault w. eexists.
    rewrite (add_constraint_fault_free E Hfault), Hnone. reflexivity. }
  split.
  { rewrite (completed_run_rows E program r w' Hrun).
    rewrite Hcstrs, flat_map_app. simpl. rewrite Hnone. reflexivity. }
  pose proof (solve_of_block_Val _ _ _ _ _ Hrun) as Hsolve.
  apply completed_run in Hrun. destruct Hrun as (row & _ & _ & Hlog & Hres).
  auto.
Qed.

Lemma unnamed_bound_kind_is_skipped_witness :
  let E := engine 2 0%R in
  let program := two_variable_program Constraint.OTHER in
  let w' := snd (try_block E program (initial [7%R])) in
  ((forall k, throws E k = None) ->
   forall w, exists k,
     add_constraint E (Constraint.mk [(0, 1%R); (1, 2%R)] Constraint.OTHER 1%R 1%R 4%R) w
     = (Val tt, extend w [] k)) /\
  filter is_row (calls w') = [lp_lib.add_constraintex 1 [1%R] [2] lp_lib.LE 3%R] /\
  logged w' = [Logger_err "The model is infeasible"] /\
  result_ w' = [7%R] /\
  _solve_LPSOLVE E program (initial [7%R]) = (Val false, w').
Proof.
  apply (unnamed_bound_kind_is_skipped (engine 2 0%R)
           (two_variable_program Constraint.OTHER)
           [] (Constraint.mk [(0, 1%R); (1, 2%R)] Constraint.OTHER 1%R 1%R 4%R)
           [Constraint.mk [(1, 1%R)] Constraint.UPPER 3%R 0%R 0%R] [7%R]).
  - reflexivity.
  - reflexivity.
  - vm_compute. reflexivity.
Defined.

(** C9.  Whenever a call does not go through the arm of status 0, that is,
    when the program has no variable, when the handle cannot be created,
    when the status code is not 0, or when an exception leaves the [try]
    block, [result_] is on return what it was on entry: the call has not
    written to it, and it is empty if it was empty. *)
Theorem failure_leaves_result_untouched E program w b w' :
  _solve_LPSOLVE E program w = (Val b, w') ->
  variables program = [] \/ make_lp_null E = true \/ status E <> 0 \/
  (exists e w1, try_block E program w = (Exc e, w1)) ->
  result_ w' = result_ w /\ (result_ w = [] -> result_ w' = []).
Proof.
  intros Hsolve Hfailure.
  enough (H : result_ w' = result_ w) by (split; [exact H | congruence]).
  destruct (try_block E program w) as [[[b' |] | e |] w1] eqn:Hblock.
  - rewrite (solve_of_block_Val _ _ _ _ _ Hblock) in Hsolve.
    inversion Hsolve. subst.
    apply try_block_returns in Hblock.
    destruct Hblock as [_ [[_ ->] | (_ & _ & ->)]]; reflexivity.
  - rewrite (solve_of_block_Val _ _ _ _ _ Hblock) in Hsolve.
    inversion Hsolve. subst.
    apply try_block_completes in Hblock.
    destruct Hblock as (Hvars & Hnull & row & k & w2 & _ & Hreport & ->).
    apply report_Val in Hreport.
    destruct Hreport as [[Hcode _] | (_ & reason & _ & ->)]; [| reflexivity].
    destruct Hfailure as [H | [H | [H | (e & w1 & H)]]];
      congruence.
  - rewrite (solve_of_block_Exc _ _ _ _ _ Hblock) in Hsolve.
    inversion Hsolve. subst.
    apply try_block_Exc in Hblock.
    destruct Hblock as (_ & _ & tr & k & -> & _). reflexivity.
  - rewrite (solve_of_block_Undefined _ _ _ _ Hblock) in Hsolve.
    discriminate.
Qed.

Lemma failure_leaves_result_untouched_witness :
  let E := engine_out_of_memory 0 5%R 2 in
  let program := two_variable_program Constraint.LOWER in
  let w := initial [] in
  let w' := snd (_solve_LPSOLVE E program w) in
  result_ w' = result_ w /\ (result_ w = [] -> result_ w' = []).
Proof.
  apply (failure_leaves_result_untouched (engine_out_of_memory 0 5%R 2)
           (two_variable_program Constraint.LOWER) (initial []) false).
  - vm_compute. reflexivity.
  - right. right. right. eexists. eexists. vm_compute. reflexivity.
Defined.

(** C1 (the code departs from the claim).  A run that reaches the end of
    the [try] block with status 0, for a program whose number of variables
    fits an [int]: [result_] then holds one value per variable, the value
    of column [i + 1] at position [i], and the call returns [false], the
    value it returns on every failure. *)
Theorem optimal_status_returns_false E program r w' :
  try_block E program (initial r) = (Val None, w') ->
  status E = 0 ->
  size (variables program) <= INT_MAX ->
  result_ w' = map (values E) (seq 0 (length (variables program))) /\
  length (result_ w') = length (variables program) /\
  _solve_LPSOLVE E program (initial r) = (Val false, w').
Proof.
  intros Hrun Hcode Hn.
  pose proof (solve_of_block_Val _ _ _ _ _ Hrun) as Hsolve.
  apply completed_run in Hrun. destruct Hrun as (row & _ & _ & _ & Hres).
  rewrite Hcode in Hres. simpl in Hres.
  assert (H : result_ w' = map (values E) (seq 0 (length (variables program)))).
  { rewrite Hres. unfold solution.
    rewrite to_int_small by (unfold size in *; lia).
    unfold size. rewrite Nat2Z.id, skipn_all2, app_nil_r; [reflexivity |].
    rewrite length_app, length_firstn, repeat_length. lia. }
  split; [exact H |]. split; [| exact Hsolve].
  rewrite H, length_map, length_seq. reflexivity.
Qed.

Lemma optimal_status_returns_false_witness :
  let E := engine 0 5%R in
  let program := fixed_program Var.CONTINUOUS in
  let w' := snd (try_block E program (initial [])) in
  result_ w' = [5%R] /\
  length (result_ w') = 1%nat /\
  _solve_LPSOLVE E program (initial []) = (Val false, w').
Proof.
  apply (optimal_status_returns_false (engine 0 5%R)
           (fixed_program Var.CONTINUOUS) []).
  - vm_compute. reflexivity.
  - reflexivity.
  - vm_compute. intros H. discriminate H.
Defined.

(** C2 (the code departs from the claim).  Whatever the program and
    whatever the library answers, no call of a run registers a bound of a
    variable: the bounds of a DOUBLE variable are read (lines 32-33) and
    never passed on, so every column keeps the default bounds. *)
Theorem explicit_bounds_never_registered E program r b w' :
  _solve_LPSOLVE E program (initial r) = (Val b, w') ->
  Forall (fun c => registers_bounds c = false) (calls w').
Proof.
  intros Hsolve.
  destruct (try_block E program (initial r)) as [[[b' |] | e |] w1] eqn:Hblock.
  - rewrite (solve_of_block_Val _ _ _ _ _ Hblock) in Hsolve.
    inversion Hsolve. subst.
    apply try_block_returns in Hblock.
    destruct Hblock as [_ [[_ ->] | (_ & _ & ->)]]; repeat constructor.
  - rewrite (solve_of_block_Val _ _ _ _ _ Hblock) in Hsolve.
    inversion Hsolve. subst.
    apply completed_run in Hblock. destruct Hblock as (row & _ & -> & _).
    apply Forall_app. split.
    + apply in_use_no_bounds, in_use_translation.
    + destruct (status E =? 0); repeat constructor.
  - rewrite (solve_of_block_Exc _ _ _ _ _ Hblock) in Hsolve.
    inversion Hsolve. subst.
    apply try_block_Exc in Hblock.
    destruct Hblock as (_ & _ & tr & k & -> & Htr). simpl.
    constructor; [reflexivity |]. apply in_use_no_bounds. exact Htr.
  - rewrite (solve_of_block_Undefined _ _ _ _ Hblock) in Hsolve.
    discriminate.
Qed.

Lemma explicit_bounds_never_registered_witness :
  Forall (fun c => registers_bounds c = false)
    [lp_lib.make_lp 0 1; lp_lib.set_verbose lp_lib.SEVERE;
     lp_lib.set_obj_fn [0%R; 1%R]; lp_lib.get_Ncolumns; lp_lib.resize_lp 1 1;
     lp_lib.set_add_rowmode TRUE;
     lp_lib.add_constraintex 1 [1%R] [1] lp_lib.EQ 5%R;
     lp_lib.set_add_rowmode FALSE; lp_lib.solve; lp_lib.get_variables;
     lp_lib.delete_lp].
Proof.
  apply (explicit_bounds_never_registered (engine 0 5%R)
           (fixed_program Var.CONTINUOUS) [] false
           (snd (_solve_LPSOLVE (engine 0 5%R)
                   (fixed_program Var.CONTINUOUS) (initial [])))).
  vm_compute. reflexivity.
Defined.

(** C3 (the code departs from the claim).  In a run that reaches the end
    of the [try] block, the columns marked integer are the numbers
    [to_int i] for the INTEGER variables [i], and the columns marked binary
    the numbers [to_int i] for the BINARY variables [i], whatever their
    bound kind: the marks use the position of the variable, where the rows
    of the objective and of the constraints use [column_of i], one more. *)
Theorem marks_use_the_variable_index E program r w' :
  try_block E program (initial r) = (Val None, w') ->
  forall column,
    (In (lp_lib.set_int column TRUE) (calls w') <->
     exists i var, nth_error (variables program) i = Some var /\
                   Var.variable_type var = Var.INTEGER /\
                   column = to_int (Z.of_nat i)) /\
    (In (lp_lib.set_binary column TRUE) (calls w') <->
     exists i var, nth_error (variables program) i = Some var /\
                   Var.variable_type var = Var.BINARY /\
                   column = to_int (Z.of_nat i)).
Proof.
  intros Hrun column.
  apply completed_run in Hrun. destruct Hrun as (row & _ & Hcalls & _).
  assert (Hmarks : filter is_mark (calls w') = variable_calls (variables program)).
  { rewrite Hcalls, !filter_app, filter_is_mark_translation.
    destruct (status E =? 0); simpl; apply app_nil_r. }
  rewrite <- in_variable_calls_set_int, <- in_variable_calls_set_binary.
  rewrite <- Hmarks, !filter_In. simpl. tauto.
Qed.

Lemma marks_use_the_variable_index_witness :
  let w' := snd (try_block (engine 0 5%R) (fixed_program Var.INTEGER) (initial [])) in
  (In (lp_lib.set_int (column_of 0) TRUE) (calls w') <->
   exists i var, nth_error (variables (fixed_program Var.INTEGER)) i = Some var /\
                 Var.variable_type var = Var.INTEGER /\
                 column_of 0 = to_int (Z.of_nat i)) /\
  (In (lp_lib.set_binary (column_of 0) TRUE) (calls w') <->
   exists i var, nth_error (variables (fixed_program Var.INTEGER)) i = Some var /\
                 Var.variable_type var = Var.BINARY /\
                 column_of 0 = to_int (Z.of_nat i)).
Proof.
  apply (marks_use_the_variable_index (engine 0 5%R)
           (fixed_program Var.INTEGER) []
           (snd (try_block (engine 0 5%R) (fixed_program Var.INTEGER) (initial [])))).
  vm_compute. reflexivity.
Defined.

(** The single INTEGER variable of [fixed_program] stands in column 1 of
    the rows; the run marks column 0 and leaves column 1 unmarked. *)
Lemma integer_variable_marks_column_zero :
  let w' := snd (_solve_LPSOLVE (engine 0 5%R) (fixed_program Var.INTEGER) (initial [])) in
  column_of 0 = 1 /\
  filter is_mark (calls w') = [lp_lib.set_int 0 TRUE] /\
  filter is_row (calls w') = [lp_lib.add_constraintex 1 [1%R] [1] lp_lib.EQ 5%R].
Proof. vm_compute. repeat split. Qed.

(** C8 (the code departs from the claim).  When an exception leaves the
    [try] block the handle has been created, the call returns normally
    through a handler, and no call of the run has released the handle. *)
Theorem exception_leaves_handle_unreleased E program r e w1 :
  try_block E program (initial r) = (Exc e, w1) ->
  exists w',
    _solve_LPSOLVE E program (initial r) = (Val false, w') /\
    make_lp_null E = false /\
    In (lp_lib.make_lp 0 (to_int (size (variables program)))) (calls w') /\
    releases (calls w') = 0%nat.
Proof.
  intros Hblock. exists (with_logged w1 [handler_line E e]).
  split; [apply solve_of_block_Exc; exact Hblock |].
  apply try_block_Exc in Hblock.
  destruct Hblock as (_ & Hnull & tr & k & -> & Htr).
  split; [exact Hnull |]. simpl. split; [left; reflexivity |].
  apply (in_use_releases (_ :: tr)). constructor; [split; reflexivity | exact Htr].
Qed.

Lemma exception_leaves_handle_unreleased_witness :
  exists w',
    _solve_LPSOLVE (engine_out_of_memory 0 5%R 0)
      (fixed_program Var.CONTINUOUS) (initial [])
    = (Val false, w') /\
    make_lp_null (engine_out_of_memory 0 5%R 0) = false /\
    In (lp_lib.make_lp 0 (to_int (size (variables (fixed_program Var.CONTINUOUS)))))
      (calls w') /\
    releases (calls w') = 0%nat.
Proof.
  apply (exception_leaves_handle_unreleased (engine_out_of_memory 0 5%R 0)
           (fixed_program Var.CONTINUOUS) []
           (std_exception "std::bad_alloc")
           (snd (try_block (engine_out_of_memory 0 5%R 0)
                   (fixed_program Var.CONTINUOUS) (initial [])))).
  vm_compute. reflexivity.
Defined.

(** The run of C8's sample input, call by call. *)
Lemma out_of_memory_run :
  _solve_LPSOLVE (engine_out_of_memory 0 5%R 0)
    (fixed_program Var.CONTINUOUS) (initial [])
  = (Val false,
     {| calls := [lp_lib.make_lp 0 1; lp_lib.set_verbose lp_lib.SEVERE];
        logged := [Logger_err "Error code = std::exception"];
        result_ := [];
        vector_ops := 1 |}).
Proof. vm_compute. reflexivity. Qed.

(** * Further properties of the call *)

(** ** The handle *)

(** When [make_lp] returns a null pointer (lines 20-24) the call writes
    "error in creating a LP model" to the error log and returns [false];
    [make_lp] is the only call made on the library: nothing is solved,
    nothing is released, and [result_] is as before. *)
Theorem null_handle_is_reported E program r :
  variables program <> [] ->
  make_lp_null E = true ->
  _solve_LPSOLVE E program (initial r)
  = (Val false,
     {| calls := [lp_lib.make_lp 0 (to_int (size (variables program)))];
        logged := [Logger_err "error in creating a LP model"];
        result_ := r; vector_ops := 0 |}).
Proof.
  intros Hvars Hnull.
  rewrite (solve_of_block_Val E program _ (Some false)
             (with_logged
                (extend (initial r)
                   [lp_lib.make_lp 0 (to_int (size (variables program)))] 0)
                [Logger_err "error in creating a LP model"])).
  - reflexivity.
  - apply try_block_null; assumption.
Qed.

Lemma null_handle_is_reported_witness :
  _solve_LPSOLVE engine_without_handle (fixed_program Var.INTEGER) (initial [3%R])
  = (Val false,
     {| calls := [lp_lib.make_lp 0 1];
        logged := [Logger_err "error in creating a LP model"];
        result_ := [3%R]; vector_ops := 0 |}).
Proof.
  apply (null_handle_is_reported engine_without_handle
           (fixed_program Var.INTEGER) [3%R]).
  - discriminate.
  - reflexivity.
Defined.

(** The calls of a run that reaches the end of the [try] block, in order
    (lines 20-146): [make_lp(0, n)], [set_verbose(SEVERE)], the marks of
    the variables, [set_obj_fn] on the objective row, [get_Ncolumns],
    [resize_lp] for as many rows as the program has constraints,
    [set_add_rowmode(TRUE)], the rows of the constraints,
    [set_add_rowmode(FALSE)], one [solve], [get_variables] when and only
    when the status is 0, and [delete_lp] last. *)
Theorem completed_run_protocol E program r w' :
  try_block E program (initial r) = (Val None, w') ->
  exists row,
    fill (coefficients (objective program))
      (repeat 0%R (length (variables program) + 1)) = Some row /\
    calls w'
    = [lp_lib.make_lp 0 (to_int (size (variables program)));
       lp_lib.set_verbose lp_lib.SEVERE]
      ++ variable_calls (variables program)
      ++ [lp_lib.set_obj_fn row; lp_lib.get_Ncolumns;
          lp_lib.resize_lp (to_int (size (constraints program)))
            (to_int (size (variables program)));
          lp_lib.set_add_rowmode TRUE]
      ++ flat_map prescribed_rows (constraints program)
      ++ [lp_lib.set_add_rowmode FALSE; lp_lib.solve]
      ++ (if status E =? 0 then [lp_lib.get_variables] else [])
      ++ [lp_lib.delete_lp].
Proof.
  intros Hrun. apply completed_run in Hrun.
  destruct Hrun as (row & Hrow & Hcalls & _).
  exists row. split; [exact Hrow |].
  rewrite Hcalls. unfold translation. simpl.
  rewrite <- !app_assoc. simpl. rewrite <- !app_assoc. reflexivity.
Qed.

Lemma completed_run_protocol_witness :
  exists row,
    fill (coefficients (objective (fixed_program Var.BINARY)))
      (repeat 0%R (length (variables (fixed_program Var.BINARY)) + 1)) = Some row /\
    calls (snd (try_block (engine 3 0%R) (fixed_program Var.BINARY) (initial [])))
    = [lp_lib.make_lp 0 1; lp_lib.set_verbose lp_lib.SEVERE]
      ++ [lp_lib.set_binary 0 TRUE]
      ++ [lp_lib.set_obj_fn row; lp_lib.get_Ncolumns; lp_lib.resize_lp 1 1;
          lp_lib.set_add_rowmode TRUE]
      ++ [lp_lib.add_constraintex 1 [1%R] [1] lp_lib.EQ 5%R]
      ++ [lp_lib.set_add_rowmode FALSE; lp_lib.solve]
      ++ []
      ++ [lp_lib.delete_lp].
Proof.
  apply (completed_run_protocol (engine 3 0%R) (fixed_program Var.BINARY) []).
  vm_compute. reflexivity.
Defined.

Lemma releases_le_1_cases E program r b w' :
  _solve_LPSOLVE E program (initial r) = (Val b, w') ->
  ((exists w1, try_block E program (initial r) = (Val None, w1)) /\
   releases (calls w') = 1%nat) \/
  ((forall w1, try_block E program (initial r) <> (Val None, w1)) /\
   releases (calls w') = 0%nat).
Proof.
  intros Hsolve.
  destruct (try_block E program (initial r)) as [[[b' |] | e |] w1] eqn:Hblock.
  - right. split; [intros w2; discriminate |].
    rewrite (solve_of_block_Val _ _ _ _ _ Hblock) in Hsolve.
    inversion Hsolve. subst.
    apply try_block_returns in Hblock.
    destruct Hblock as [_ [[_ ->] | (_ & _ & ->)]]; reflexivity.
  - left. split; [exists w1; reflexivity |].
    rewrite (solve_of_block_Val _ _ _ _ _ Hblock) in Hsolve.
    inversion Hsolve. subst.
    apply (completed_run_releases_once E program r). exact Hblock.
  - right. split; [intros w2; discriminate |].
    rewrite (solve_of_block_Exc _ _ _ _ _ Hblock) in Hsolve.
    inversion Hsolve. subst.
    apply try_block_Exc in Hblock.
    destruct Hblock as (_ & _ & tr & k & -> & Htr). simpl.
    apply (in_use_releases (_ :: tr)).
    constructor; [split; reflexivity | exact Htr].
  - rewrite (solve_of_block_Undefined _ _ _ _ Hblock) in Hsolve.
    discriminate.
Qed.

(** The handle is never released twice, and it is released once exactly
    when control reaches the end of the [try] block (line 146): not when
    the program has no variable, not when [make_lp] returns a null
    pointer, not when an exception is caught. *)
Theorem handle_released_at_most_once E program r b w' :
  _solve_LPSOLVE E program (initial r) = (Val b, w') ->
  (releases (calls w') <= 1)%nat /\
  (releases (calls w') = 1%nat <->
   exists w1, try_block E program (initial r) = (Val None, w1)).
Proof.
  intros Hsolve. apply releases_le_1_cases in Hsolve.
  destruct Hsolve as [[Hdone Hone] | [Hnot Hzero]].
  - rewrite Hone. split; [lia |]. split; [intros _; exact Hdone | reflexivity].
  - rewrite Hzero. split; [lia |]. split; [discriminate |].
    intros (w1 & H1). destruct (Hnot w1 H1).
Qed.

Lemma handle_released_at_most_once_witness :
  let w' := snd (_solve_LPSOLVE (engine 7 0%R)
                   (two_variable_program Constraint.UPPER) (initial [])) in
  (releases (calls w') <= 1)%nat /\
  (releases (calls w') = 1%nat <->
   exists w1, try_block (engine 7 0%R)
                (two_variable_program Constraint.UPPER) (initial [])
              = (Val None, w1)).
Proof.
  apply (handle_released_at_most_once (engine 7 0%R)
           (two_variable_program Constraint.UPPER) [] false).
  vm_compute. reflexivity.
Defined.

(** ** Undefined behaviour *)

Lemma defined_ret {A} (a : A) : defined (ret a).
Proof. intros w. discriminate. Qed.

Lemma defined_call c : defined (call c).
Proof. intros w. discriminate. Qed.

Lemma defined_bind {A B} (m : M A) (k : A -> M B) :
  defined m -> (forall a, defined (k a)) -> defined (bind m k).
Proof.
  intros Hm Hk w. unfold bind. specialize (Hm w).
  destruct (m w) as [[a | e |] w1]; simpl in *.
  - apply Hk.
  - discriminate.
  - destruct Hm. reflexivity.
Qed.

Lemma defined_for_each {A} (l : list A) (body : A -> M unit) :
  (forall a, defined (body a)) -> defined (for_each l body).
Proof.
  intros Hbody. induction l as [| a l IH]; simpl.
  - apply defined_ret.
  - apply defined_bind; auto.
Qed.

Lemma defined_fold_each {A S} (l : list A) (body : S -> A -> M S) :
  (forall s a, defined (body s a)) -> forall s, defined (fold_each l body s).
Proof.
  intros Hbody. induction l as [| a l IH]; intros s; simpl.
  - apply defined_ret.
  - apply defined_bind; auto.
Qed.

Lemma defined_vector_op E : defined (vector_op E).
Proof.
  intros w. unfold vector_op. destruct (throws E (vector_ops w)); discriminate.
Qed.

Lemma defined_push_back E {A} (v : list A) x : defined (push_back E v x).
Proof.
  apply defined_bind; [apply defined_vector_op | intros; apply defined_ret].
Qed.

Lemma defined_add_constraint E cstr : defined (add_constraint E cstr).
Proof.
  apply defined_bind.
  { apply defined_fold_each. intros [colno sparserow] [var_idx coeff].
    apply defined_bind; [apply defined_push_back |].
    intros colno'. apply defined_bind; [apply defined_push_back |].
    intros sparserow'. apply defined_ret. }
  intros [colno sparserow].
  destruct (Constraint.bound_type cstr);
    repeat first [ apply defined_call | apply defined_ret
                 | apply defined_bind; [| intros _] ].
Qed.

Lemma defined_add_constraints E lp cstrs : defined (add_constraints E lp cstrs).
Proof.
  unfold add_constraints, get_Ncolumns.
  repeat first [ apply defined_call | apply defined_ret
               | apply defined_for_each; intros; apply defined_add_constraint
               | apply defined_bind; [| intros ?] ].
Qed.

Lemma store_None v : forall i c, (length v <= i)%nat -> store v i c = None.
Proof.
  induction v as [| y v IH]; intros i c Hi; simpl in *.
  - reflexivity.
  - destruct i as [| i]; [lia |]. rewrite IH by lia. reflexivity.
Qed.


Lemma fill_None entries : forall row,
  Exists (fun e => (length row <= subscript e)%nat) entries ->
  fill entries row = None.
Proof.
  induction entries as [| [k c] rest IH]; intros row Hex; simpl.
  - inversion Hex.
  - destruct (store row (Z.to_nat (size_t_add k 1)) c) as [row1 |] eqn:Hstore;
      [| reflexivity].
    apply IH. rewrite (store_length _ _ _ _ Hstore).
    inversion Hex as [? ? Hk | ? ? Hrest]; subst; [| exact Hrest].
    unfold subscript in Hk. simpl in Hk.
    rewrite store_None in Hstore by exact Hk. discriminate.
Qed.

Lemma set_objective_defined E vars obj row w :
  fill (coefficients obj) (repeat 0%R (length vars + 1)) = Some row ->
  fst (set_objective E vars obj w) <> Undefined.
Proof.
  intros Hrow. unfold set_objective, vector_fill, bind, vector_op.
  destruct (throws E (vector_ops w)); simpl; [discriminate |].
  rewrite fill_run, Hrow. simpl. discriminate.
Qed.


(** The [switch] never overruns [result_]: the buffer has one slot per
    variable and the handle never has more columns than that. *)
Lemma report_defined E program code w :
  fst (report E (handle program) (variables program) code w) <> Undefined.
Proof.
  destruct (Z.eq_dec code 0) as [-> | Hcode].
  - rewrite report_optimal. cbv zeta.
    destruct (throws E (vector_ops w)); [discriminate |].
    pose proof (handle_columns program) as Hcols.
    apply Nat.leb_le in Hcols. rewrite Hcols. discriminate.
  - destruct (report_failure E (handle program) (variables program) code w Hcode)
      as (reason & _ & ->). discriminate.
Qed.

Lemma try_block_defined E program w :
  Forall (fun e => (subscript e <= length (variables program))%nat)
    (coefficients (objective program)) ->
  fst (try_block E program w) <> Undefined.
Proof.
  intros Hin.
  destruct (fill_Some (coefficients (objective program))
              (repeat 0%R (length (variables program) + 1))) as (row & Hrow & _).
  { rewrite repeat_length. eapply Forall_impl; [| exact Hin].
    simpl. intros e He. lia. }
  destruct (variables program) as [| v vs] eqn:Hv.
  { rewrite try_block_empty by assumption. discriminate. }
  assert (Hvars : variables program <> []) by (rewrite Hv; discriminate).
  rewrite <- Hv in *.
  destruct (make_lp_null E) eqn:Hnull.
  { rewrite try_block_null by assumption. discriminate. }
  rewrite try_block_created by assumption.
  apply defined_bind.
  - unfold populate. apply defined_bind; [apply defined_call | intros _].
    apply defined_bind.
    { intros w0. rewrite create_variables_run. discriminate. }
    intros _. apply defined_bind.
    { intros w0. eapply set_objective_defined. exact Hrow. }
    intros _. apply defined_bind; [apply defined_add_constraints | intros _].
    unfold solve. apply defined_bind; [apply defined_call | intros _].
    apply defined_ret.
  - intros code. apply defined_bind.
    { intros w0. apply report_defined. }
    intros _. apply defined_bind; [apply defined_call | intros _].
    apply defined_ret.
Qed.

(** When every subscript of line 53 lies within the objective row, the
    call returns, and returns [false]: whatever the library answers and
    whichever vector operation fails, no exception leaves the function and
    [true] is never returned. *)
Theorem call_always_returns_false E program w :
  Forall (fun e => (subscript e <= length (variables program))%nat)
    (coefficients (objective program)) ->
  exists w', _solve_LPSOLVE E program w = (Val false, w').
Proof.
  intros Hin. pose proof (try_block_defined E program w Hin) as Hdef.
  destruct (try_block E program w) as [[[b |] | e |] w1] eqn:Hblock.
  - exists w1. rewrite (solve_of_block_Val _ _ _ _ _ Hblock).
    apply try_block_returns in Hblock. destruct Hblock as [-> _]. reflexivity.
  - exists w1. apply (solve_of_block_Val _ _ _ _ _ Hblock).
  - eexists. apply (solve_of_block_Exc _ _ _ _ _ Hblock).
  - destruct Hdef. reflexivity.
Qed.

Lemma call_always_returns_false_witness :
  exists w',
    _solve_LPSOLVE (engine_out_of_memory 0 1%R 3)
      (two_variable_program Constraint.DOUBLE) (initial [])
    = (Val false, w').
Proof.
  apply (call_always_returns_false (engine_out_of_memory 0 1%R 3)
           (two_variable_program Constraint.DOUBLE) (initial [])).
  repeat constructor.
Defined.

(** An objective entry whose key is not a variable index (line 53 does not
    check it): once the handle exists and the objective row is allocated,
    the store is out of range and the behaviour of the call is undefined. *)
Theorem objective_key_out_of_range_is_undefined E program r k c :
  variables program <> [] ->
  make_lp_null E = false ->
  throws E 0 = None ->
  In (k, c) (coefficients (objective program)) ->
  size (variables program) <= k < size_t_max ->
  exists w', _solve_LPSOLVE E program (initial r) = (Undefined, w').
Proof.
  intros Hvars Hnull Hthrow Hin Hk.
  assert (Hfill : fill (coefficients (objective program))
                    (repeat 0%R (length (variables program) + 1)) = None).
  { apply fill_None, Exists_exists. exists (k, c). split; [exact Hin |].
    rewrite repeat_length. unfold subscript, size_t_add, size_t_max, size in *.
    simpl. change (2 ^ 64) with 18446744073709551616 in *.
    rewrite Z.mod_small by lia. lia. }
  destruct (try_block E program (initial r)) as [res w1] eqn:Hblock.
  assert (Hres : res = Undefined).
  { rewrite try_block_created in Hblock by assumption.
    unfold populate in Hblock. unfold bind at 1 2 in Hblock.
    rewrite call_extend in Hblock.
    unfold bind at 1 in Hblock. rewrite create_variables_run in Hblock.
    unfold bind at 1 in Hblock.
    unfold set_objective, vector_fill in Hblock.
    unfold bind at 1 2 3, vector_op in Hblock. simpl in Hblock.
    rewrite Hthrow in Hblock. unfold ret at 1 in Hblock.
    unfold bind at 1 in Hblock. rewrite fill_run, Hfill in Hblock.
    inversion Hblock. reflexivity. }
  subst res. exists w1. apply solve_of_block_Undefined. exact Hblock.
Qed.

Lemma objective_key_out_of_range_is_undefined_witness :
  exists w',
    _solve_LPSOLVE (engine 0 1%R)
      {| variables := [Var.mk Var.CONTINUOUS Var.NONE 0%R 0%R];
         objective := {| coefficients := [(0, 1%R); (1, 2%R)] |};
         constraints := [] |} (initial [])
    = (Undefined, w').
Proof.
  apply (objective_key_out_of_range_is_undefined (engine 0 1%R)
           {| variables := [Var.mk Var.CONTINUOUS Var.NONE 0%R 0%R];
              objective := {| coefficients := [(0, 1%R); (1, 2%R)] |};
              constraints := [] |} [] 1 2%R).
  - discriminate.
  - reflexivity.
  - reflexivity.
  - right. left. reflexivity.
  - vm_compute. split; [intros H; discriminate H | reflexivity].
Defined.

(** ** Where the solve is reached *)

Lemma describes_variable_calls vars : Forall describes (variable_calls vars).
Proof.
  unfold variable_calls. induction (indexed vars) as [| [i var] l IH]; simpl.
  - constructor.
  - apply Forall_app. split; [| exact IH].
    destruct (Var.variable_type var); repeat constructor.
Qed.

Lemma describes_prescribed_rows cstrs :
  Forall describes (flat_map prescribed_rows cstrs).
Proof.
  induction cstrs as [| c cstrs IH]; simpl.
  - constructor.
  - apply Forall_app. split; [| exact IH].
    unfold prescribed_rows.
    destruct (Constraint.bound_type c); repeat constructor.
Qed.

Lemma describes_solves tr : Forall describes tr -> solves tr = 0%nat.
Proof.
  unfold solves. induction 1 as [| c tr Hc _ IH]; simpl.
  - reflexivity.
  - destruct c; simpl in *; try contradiction; exact IH.
Qed.

Lemma solves_app tr1 tr2 : solves (tr1 ++ tr2) = (solves tr1 + solves tr2)%nat.
Proof. unfold solves. rewrite filter_app, length_app. reflexivity. Qed.

Lemma solves_translation program row : solves (translation program row) = 1%nat.
Proof.
  unfold translation. rewrite !solves_app.
  rewrite (describes_solves _ (describes_variable_calls _)).
  rewrite (describes_solves _ (describes_prescribed_rows _)).
  reflexivity.
Qed.


(** Progress.  A program with at least one variable whose objective keys
    stay within the objective row, a library that creates the handle, and
    a run in which no vector operation fails: the [try] block runs to its
    end, whatever the constraints and the status code are, and the
    library is asked to solve exactly once. *)
Theorem well_formed_program_reaches_the_solve E program r :
  (forall k, throws E k = None) ->
  variables program <> [] ->
  make_lp_null E = false ->
  Forall (fun e => (subscript e <= length (variables program))%nat)
    (coefficients (objective program)) ->
  exists w',
    try_block E program (initial r) = (Val None, w') /\
    solves (calls w') = 1%nat.
Proof.
  intros Hfault Hvars Hnull Hin.
  destruct (try_block_fault_free E Hfault program (initial r) Hvars Hnull Hin)
    as (w' & Hrun).
  exists w'. split; [exact Hrun |].
  apply completed_run in Hrun. destruct Hrun as (row & _ & -> & _).
  rewrite !solves_app, solves_translation.
  destruct (status E =? 0); reflexivity.
Qed.

Lemma well_formed_program_reaches_the_solve_witness :
  exists w',
    try_block (engine 25 0%R) (two_variable_program Constraint.OTHER) (initial [])
    = (Val None, w') /\
    solves (calls w') = 1%nat.
Proof.
  apply (well_formed_program_reaches_the_solve (engine 25 0%R)
           (two_variable_program Constraint.OTHER) []).
  - reflexivity.
  - discriminate.
  - reflexivity.
  - repeat constructor.
Defined.

(** ** Where an exception can come from *)

Lemma populate_Exc E program lp w e w' :
  populate E program lp w = (Exc e, w') ->
  exists tr k,
    w' = extend w (lp_lib.set_verbose lp_lib.SEVERE :: tr) k /\
    Forall describes tr.
Proof.
  unfold populate. intros H.
  unfold bind at 1 in H. rewrite call_extend in H.
  unfold bind at 1 in H. rewrite create_variables_run in H.
  apply bind_Exc_inv in H. destruct H as [H | ([] & w1 & H1 & H)].
  - destruct (emits_set_objective E (variables program) (objective program)
                (extend (extend w [lp_lib.set_verbose lp_lib.SEVERE] 0)
                   (variable_calls (variables program)) 0))
      as (tr & k & Hw & Htr).
    rewrite H in Hw. simpl in Hw. subst w'. rewrite !extend_extend.
    eexists. eexists. split; [reflexivity |].
    apply Forall_app. split; [apply describes_variable_calls | exact Htr].
  - apply set_objective_Val in H1. destruct H1 as (row & _ & ->).
    apply bind_Exc_inv in H. destruct H as [H | ([] & w2 & _ & H)].
    + match type of H with
      | add_constraints _ _ _ ?W = _ =>
          destruct (emits_add_constraints E lp (constraints program) W)
            as (tr & k & Hw & Htr)
      end.
      rewrite H in Hw. simpl in Hw. subst w'. rewrite !extend_extend.
      eexists. eexists. split; [reflexivity |].
      apply Forall_app. split; [apply describes_variable_calls |].
      apply Forall_app. split; [repeat constructor | exact Htr].
    + unfold solve, bind in H. rewrite call_extend in H. discriminate.
Qed.

(** An exception leaves the [try] block either before the solve, or from
    the resize of [result_] after a solve with status 0. *)
Lemma try_block_Exc_origin E program w e w1 :
  try_block E program w = (Exc e, w1) ->
  (exists tr k,
     w1 = extend w (lp_lib.make_lp 0 (to_int (size (variables program)))
                      :: lp_lib.set_verbose lp_lib.SEVERE :: tr) k /\
     Forall describes tr) \/
  (status E = 0 /\
   exists row k, w1 = extend w (translation program row) k).
Proof.
  intros H.
  destruct (variables program) as [| v vs] eqn:Hv.
  { rewrite try_block_empty in H by assumption. discriminate. }
  assert (Hvars : variables program <> []) by (rewrite Hv; discriminate).
  destruct (make_lp_null E) eqn:Hnull.
  { rewrite try_block_null in H by assumption. discriminate. }
  rewrite try_block_created in H by assumption. rewrite <- Hv.
  apply bind_Exc_inv in H. destruct H as [H | (code & w2 & H2 & H)].
  - left. apply populate_Exc in H. destruct H as (tr & k & -> & Htr).
    rewrite extend_extend. exists tr, k. auto.
  - right. apply populate_Val in H2. destruct H2 as (-> & row & k & _ & ->).
    apply bind_Exc_inv in H. destruct H as [H | ([] & w3 & _ & H)].
    + apply report_Exc in H. destruct H as [Hcode ->].
      split; [exact Hcode |]. exists row. eexists.
      rewrite !extend_extend, app_nil_r. reflexivity.
    + unfold bind in H. rewrite call_extend in H. discriminate.
Qed.

(** A caught exception (lines 148-153).  The call returns [false] after
    writing one line and leaves [result_] as it was.  For an exception
    derived from [std::exception] the line is "Error code = " followed by
    the text of the handler's by-value copy of the exception (what the
    standard library makes [what()] of such a copy, not the text of the
    object thrown); for any other exception it is "Exception during
    optimization".  Either the exception was raised while the
    problem was described, and the library was never asked to solve; or it
    was raised by the resize of [result_] after a solve whose status was 0,
    and the solution of that solve is not copied. *)
Theorem caught_exception_is_logged_once E program r e w1 :
  try_block E program (initial r) = (Exc e, w1) ->
  exists w',
    _solve_LPSOLVE E program (initial r) = (Val false, w') /\
    logged w'
    = [match e with
       | std_exception what =>
           Logger_err ("Error code = " ++ what_of_copy E what)
       | other_exception => Logger_err "Exception during optimization"
       end] /\
    result_ w' = r /\
    (solves (calls w') = 0%nat \/
     (status E = 0 /\ solves (calls w') = 1%nat /\
      ~ In lp_lib.get_variables (calls w'))).
Proof.
  intros Hblock. exists (with_logged w1 [handler_line E e]).
  split; [apply solve_of_block_Exc; exact Hblock |].
  apply try_block_Exc_origin in Hblock.
  destruct Hblock as [(tr & k & -> & Htr) | (Hcode & row & k & ->)]; simpl.
  - split; [destruct e; reflexivity |]. split; [reflexivity |]. left.
    apply (describes_solves tr). exact Htr.
  - split; [destruct e; reflexivity |]. split; [reflexivity |]. right.
    split; [exact Hcode |]. split; [apply solves_translation |].
    intros Hin. pose proof (in_use_translation program row) as Huse.
    unfold translation in Hin. simpl in Hin.
    destruct Hin as [Hin | [Hin | Hin]]; try discriminate.
    apply in_app_or in Hin. destruct Hin as [Hin | Hin].
    + pose proof (describes_variable_calls (variables program)) as Hd.
      rewrite Forall_forall in Hd. apply (Hd _ Hin).
    + simpl in Hin.
      destruct Hin as [Hin | [Hin | [Hin | [Hin | Hin]]]]; try discriminate.
      apply in_app_or in Hin. destruct Hin as [Hin | Hin].
      * pose proof (describes_prescribed_rows (constraints program)) as Hd.
        rewrite Forall_forall in Hd. apply (Hd _ Hin).
      * simpl in Hin. destruct Hin as [Hin | [Hin | []]]; discriminate.
Qed.

Lemma caught_exception_is_logged_once_witness :
  exists w',
    _solve_LPSOLVE (engine_out_of_memory 0 1%R 6)
      (two_variable_program Constraint.LOWER) (initial [9%R])
    = (Val false, w') /\
    logged w' = [Logger_err "Error code = std::exception"] /\
    result_ w' = [9%R] /\
    (solves (calls w') = 0%nat \/
     (status (engine_out_of_memory 0 1%R 6) = 0 /\ solves (calls w') = 1%nat /\
      ~ In lp_lib.get_variables (calls w'))).
Proof.
  apply (caught_exception_is_logged_once (engine_out_of_memory 0 1%R 6)
           (two_variable_program Constraint.LOWER) [9%R]
           (std_exception "std::bad_alloc")
           (snd (try_block (engine_out_of_memory 0 1%R 6)
                   (two_variable_program Constraint.LOWER) (initial [9%R])))).
  vm_compute. reflexivity.
Defined.

(** One call asks the library to solve at most once, and not at all when
    the program has no variable or the handle cannot be created: nothing
    is retried. *)
Theorem at_most_one_solve E program r b w' :
  _solve_LPSOLVE E program (initial r) = (Val b, w') ->
  (solves (calls w') <= 1)%nat /\
  (variables program = [] \/ make_lp_null E = true -> solves (calls w') = 0%nat).
Proof.
  intros Hsolve.
  destruct (try_block E program (initial r)) as [[[b' |] | e |] w1] eqn:Hblock.
  - rewrite (solve_of_block_Val _ _ _ _ _ Hblock) in Hsolve.
    inversion Hsolve. subst.
    apply try_block_returns in Hblock.
    destruct Hblock as [_ [[_ ->] | (_ & _ & ->)]]; simpl; auto.
  - rewrite (solve_of_block_Val _ _ _ _ _ Hblock) in Hsolve.
    inversion Hsolve. subst.
    pose proof (try_block_completes _ _ _ _ Hblock) as (Hvars & Hnull & _).
    apply completed_run in Hblock. destruct Hblock as (row & _ & -> & _).
    rewrite !solves_app, solves_translation.
    split; [destruct (status E =? 0); unfold solves; simpl; lia |].
    intros [H | H]; congruence.
  - rewrite (solve_of_block_Exc _ _ _ _ _ Hblock) in Hsolve.
    inversion Hsolve. subst.
    pose proof (try_block_Exc _ _ _ _ _ Hblock) as (Hvars & Hnull & _).
    apply try_block_Exc_origin in Hblock.
    destruct Hblock as [(tr & k & -> & Htr) | (Hcode & row & k & ->)]; simpl.
    + change (solves (_ :: _ :: tr)) with (solves tr).
      rewrite (describes_solves tr Htr).
      split; [lia | reflexivity].
    + rewrite solves_translation. split; [lia |].
      intros [H | H]; congruence.
  - rewrite (solve_of_block_Undefined _ _ _ _ Hblock) in Hsolve.
    discriminate.
Qed.

Lemma at_most_one_solve_witness :
  let w' := snd (_solve_LPSOLVE engine_without_handle
                   (two_variable_program Constraint.FIXED) (initial [])) in
  (solves (calls w') <= 1)%nat /\
  (variables (two_variable_program Constraint.FIXED) = [] \/
   make_lp_null engine_without_handle = true -> solves (calls w') = 0%nat).
Proof.
  apply (at_most_one_solve engine_without_handle
           (two_variable_program Constraint.FIXED) [] false).
  vm_compute. reflexivity.
Defined.

(** ** The objective row, entry by entry *)

Lemma store_nth_same v : forall i c v',
  store v i c = Some v' -> nth i v' 0%R = c.
Proof.
  induction v as [| y v IH]; intros i c v' H; simpl in H.
  - discriminate.
  - destruct i as [| i].
    + inversion H. reflexivity.
    + destruct (store v i c) as [v1 |] eqn:H1; inversion H.
      simpl. eapply IH. exact H1.
Qed.

Lemma fill_nth_other entries : forall row row' j,
  fill entries row = Some row' ->
  (forall e, In e entries -> subscript e <> j) ->
  nth j row' 0%R = nth j row 0%R.
Proof.
  induction entries as [| [k c] rest IH]; intros row row' j H Hj; simpl in H.
  - inversion H. reflexivity.
  - destruct (store row (Z.to_nat (size_t_add k 1)) c) as [row1 |] eqn:Hstore;
      [| discriminate].
    rewrite (IH row1 row' j H) by (intros e He; apply Hj; right; exact He).
    apply (store_nth _ _ _ _ j Hstore).
    intros Heq. apply (Hj (k, c)); [left; reflexivity |].
    unfold subscript. simpl. congruence.
Qed.

Lemma subscript_small k c :
  0 <= k < INT_MAX -> subscript (k, c) = Z.to_nat (k + 1).
Proof.
  intros Hk. unfold subscript. simpl. rewrite size_t_add_small by assumption.
  reflexivity.
Qed.

Lemma fill_nth_key n entries : forall row row' k c,
  coefficient_map n entries -> n <= INT_MAX ->
  fill entries row = Some row' ->
  In (k, c) entries ->
  nth (Z.to_nat (k + 1)) row' 0%R = c.
Proof.
  induction entries as [| [k0 c0] rest IH];
    intros row row' k c [Hnodup Hrange] Hn H Hin; simpl in H.
  - destruct Hin.
  - unfold keys in *. simpl in *.
    inversion Hnodup as [| ? ? Hnotin Hnodup']. subst.
    inversion Hrange as [| ? ? Hk0 Hrange']. subst.
    destruct (store row (Z.to_nat (size_t_add k0 1)) c0) as [row1 |] eqn:Hstore;
      [| discriminate].
    destruct Hin as [Hin | Hin].
    + inversion Hin. subst.
      rewrite size_t_add_small in Hstore by lia.
      rewrite (fill_nth_other rest row1 row' _ H).
      * apply (store_nth_same _ _ _ _ Hstore).
      * intros [k' c'] He Heq.
        rewrite Forall_forall in Hrange'.
        assert (Hk' : 0 <= k' < n) by (apply Hrange', in_map_iff; exists (k', c'); auto).
        rewrite subscript_small in Heq by lia.
        apply Hnotin. apply in_map_iff. exists (k', c'). split; [simpl; lia | exact He].
    + apply (IH row1 row' k c); try assumption. split; assumption.
Qed.

(** The objective row (lines 45-55) of a program whose objective is a
    coefficient map and whose number of variables fits an [int], in a run
    in which no vector operation fails: the row handed to [set_obj_fn]
    has one element more than there are variables; element 0 is 0; element
    [k + 1] is the coefficient of variable [k] when the objective has one,
    and 0 when it has none. *)
Theorem objective_row_holds_the_coefficients E (vars : list Var.t) obj w :
  (forall k, throws E k = None) ->
  coefficient_map (size vars) (coefficients obj) ->
  size vars <= INT_MAX ->
  exists row,
    set_objective E vars obj w = (Val tt, extend w [lp_lib.set_obj_fn row] 1) /\
    length row = (length vars + 1)%nat /\
    nth 0 row 0%R = 0%R /\
    (forall k c, In (k, c) (coefficients obj) ->
                 nth (Z.to_nat (k + 1)) row 0%R = c) /\
    (forall k, 0 <= k < size vars -> ~ In k (keys (coefficients obj)) ->
               nth (Z.to_nat (k + 1)) row 0%R = 0%R).
Proof.
  intros Hfault Hmap Hn.
  assert (Hin : Forall (fun e => (subscript e < length (repeat 0%R (length vars + 1)))%nat)
                  (coefficients obj)).
  { rewrite repeat_length. destruct Hmap as [_ Hrange].
    unfold keys in Hrange. rewrite Forall_map in Hrange.
    eapply Forall_impl; [| exact Hrange].
    intros [k c] Hk. simpl in Hk. rewrite subscript_small by lia.
    unfold size in *. lia. }
  destruct (fill_Some _ _ Hin) as (row & Hrow & Hlen).
  rewrite repeat_length in Hlen.
  exists row. split; [apply set_objective_fault_free; assumption |].
  split; [exact Hlen |]. split; [| split].
  - rewrite (fill_nth_other _ _ _ 0%nat Hrow).
    + rewrite Nat.add_1_r. reflexivity.
    + intros [k c] He. destruct Hmap as [_ Hrange].
      rewrite Forall_forall in Hrange.
      assert (Hk : 0 <= k < size vars)
        by (apply Hrange, in_map_iff; exists (k, c); auto).
      rewrite subscript_small by lia. lia.
  - intros k c He. apply (fill_nth_key (size vars) _ _ _ k c Hmap Hn Hrow He).
  - intros k Hk Hnotin.
    rewrite (fill_nth_other _ _ _ (Z.to_nat (k + 1)) Hrow).
    + apply nth_repeat.
    + intros [k' c'] He. destruct Hmap as [_ Hrange].
      rewrite Forall_forall in Hrange.
      assert (Hk' : 0 <= k' < size vars)
        by (apply Hrange, in_map_iff; exists (k', c'); auto).
      rewrite subscript_small by lia. intros Heq.
      apply Hnotin. apply in_map_iff. exists (k', c').
      split; [simpl; lia | exact He].
Qed.

Lemma objective_row_holds_the_coefficients_witness :
  let vars := variables (two_variable_program Constraint.UPPER) in
  let obj := {| coefficients := [(1, 7%R)] |} in
  let w := initial [] in
  exists row,
    set_objective (engine 0 0%R) vars obj w
    = (Val tt, extend w [lp_lib.set_obj_fn row] 1) /\
    length row = (length vars + 1)%nat /\
    nth 0 row 0%R = 0%R /\
    (forall k c, In (k, c) (coefficients obj) ->
                 nth (Z.to_nat (k + 1)) row 0%R = c) /\
    (forall k, 0 <= k < size vars -> ~ In k (keys (coefficients obj)) ->
               nth (Z.to_nat (k + 1)) row 0%R = 0%R).
Proof.
  apply (objective_row_holds_the_coefficients (engine 0 0%R)
           (variables (two_variable_program Constraint.UPPER))
           {| coefficients := [(1, 7%R)] |} (initial [])).
  - reflexivity.
  - split.
    + repeat constructor. simpl. tauto.
    + repeat constructor; simpl; lia.
  - vm_compute. intros H. discriminate H.
Defined.

(** ** The rows, array by array *)

Lemma arrays_agree_prescribed_rows cstrs :
  Forall arrays_agree (flat_map prescribed_rows cstrs).
Proof.
  induction cstrs as [| c cstrs IH]; simpl.
  - constructor.
  - apply Forall_app. split; [| exact IH].
    unfold prescribed_rows.
    destruct (Constraint.bound_type c); repeat constructor;
      unfold size; rewrite !length_map; reflexivity.
Qed.

(** Every row added in a run that reaches the end of the [try] block
    (lines 67-100) passes two arrays of the same length, one coefficient
    per column number, and as count the length of the arrays converted to
    [int]: when that length fits an [int], the library reads exactly the
    arrays. *)
Theorem rows_pass_matching_arrays E program r w' :
  try_block E program (initial r) = (Val None, w') ->
  Forall arrays_agree (filter is_row (calls w')).
Proof.
  intros Hrun. rewrite (completed_run_rows E program r w' Hrun).
  apply arrays_agree_prescribed_rows.
Qed.

Lemma rows_pass_matching_arrays_witness :
  Forall arrays_agree
    [lp_lib.add_constraintex 2 [1%R; 2%R] [1; 2] lp_lib.EQ 1%R;
     lp_lib.add_constraintex 1 [1%R] [2] lp_lib.LE 3%R].
Proof.
  apply (rows_pass_matching_arrays (engine 0 0%R)
           (two_variable_program Constraint.FIXED) []
           (snd (try_block (engine 0 0%R)
                   (two_variable_program Constraint.FIXED) (initial [])))).
  vm_compute. reflexivity.
Defined.

Lemma columns_within_prescribed_rows n cstrs :
  0 <= n <= INT_MAX ->
  Forall (fun cstr => Forall (fun k => 0 <= k < n)
                        (keys (Constraint.coefficients cstr))) cstrs ->
  Forall (columns_within n) (flat_map prescribed_rows cstrs).
Proof.
  intros Hn. induction 1 as [| c cstrs Hc _ IH]; simpl.
  - constructor.
  - apply Forall_app. split; [| exact IH].
    assert (Hcols : Forall (fun j => 1 <= j <= n)
                      (map (fun e => column_of (fst e)) (Constraint.coefficients c))).
    { unfold keys in Hc. rewrite Forall_map in *.
      eapply Forall_impl; [| exact Hc].
      intros [k a] Hk. simpl in *. rewrite column_of_small by lia. lia. }
    unfold prescribed_rows.
    destruct (Constraint.bound_type c); repeat constructor; exact Hcols.
Qed.

(** *** The rows of a run that is cut short *)

Lemma rowless_ret {A} (a : A) : rowless (ret a).
Proof. intros w. exists []. simpl. rewrite app_nil_r. auto. Qed.

Lemma rowless_call c : is_row c = false -> rowless (call c).
Proof. intros Hc w. exists [c]. simpl. rewrite Hc. auto. Qed.

Lemma rowless_log m : rowless (log m).
Proof. intros w. exists []. simpl. rewrite app_nil_r. auto. Qed.

Lemma rowless_bind {A B} (m : M A) (k : A -> M B) :
  rowless m -> (forall a, rowless (k a)) -> rowless (bind m k).
Proof.
  intros Hm Hk w. destruct (Hm w) as (tr & Hc & Hf).
  unfold bind. destruct (m w) as [[a | e |] w1]; simpl in *.
  - destruct (Hk a w1) as (tr' & Hc' & Hf').
    exists (tr ++ tr'). rewrite Hc', Hc, app_assoc, filter_app, Hf, Hf'. auto.
  - exists tr. auto.
  - exists tr. auto.
Qed.

Lemma rowless_of_emits {A} (m : M A) :
  emits (fun c => is_row c = false) m -> rowless m.
Proof.
  intros Hm w. destruct (Hm w) as (tr & k & Hw & Htr).
  exists tr. rewrite Hw. split; [reflexivity |]. clear Hw.
  induction Htr as [| c tr Hc _ IH]; simpl; [reflexivity |].
  rewrite Hc. exact IH.
Qed.

Lemma rowless_create_variables vars : rowless (create_variables vars).
Proof.
  intros w. rewrite create_variables_run. exists (variable_calls vars).
  split; [reflexivity | apply filter_is_row_variable_calls].
Qed.

Lemma rowless_set_objective E vars obj : rowless (set_objective E vars obj).
Proof.
  apply rowless_of_emits. apply emits_bind.
  { apply emits_bind; [apply emits_vector_op | intros; apply emits_ret]. }
  intros row. apply emits_bind.
  { apply emits_fold_each. intros s [var_idx coeff]. apply emits_subscript_store. }
  intros row'. apply emits_call. reflexivity.
Qed.

Lemma rowless_report E lp vars code : rowless (report E lp vars code).
Proof.
  intros w. destruct (Z.eq_dec code 0) as [-> | Hcode].
  - rewrite report_optimal. cbv zeta.
    destruct (throws E (vector_ops w)).
    + exists []. auto.
    + destruct (_ <=? _)%nat; exists [lp_lib.get_variables]; auto.
  - destruct (report_failure E lp vars code w Hcode) as (reason & _ & ->).
    exists []. simpl. rewrite app_nil_r. auto.
Qed.

Lemma rows_prefix_bind_l cstrs {A B} (m : M A) (k : A -> M B) :
  rowless m -> (forall a, rows_prefix cstrs (k a)) -> rows_prefix cstrs (bind m k).
Proof.
  intros Hm Hk w. destruct (Hm w) as (tr & Hc & Hf).
  unfold bind. destruct (m w) as [[a | e |] w1]; simpl in *.
  - destruct (Hk a w1) as (tr' & done & rest & Hc' & Hcs & Hf').
    exists (tr ++ tr'), done, rest.
    rewrite Hc', Hc, app_assoc, filter_app, Hf, Hf'. auto.
  - exists tr, [], cstrs. auto.
  - exists tr, [], cstrs. auto.
Qed.

Lemma rows_prefix_bind_r cstrs {A B} (m : M A) (k : A -> M B) :
  rows_prefix cstrs m -> (forall a, rowless (k a)) -> rows_prefix cstrs (bind m k).
Proof.
  intros Hm Hk w. destruct (Hm w) as (tr & done & rest & Hc & Hcs & Hf).
  unfold bind. destruct (m w) as [[a | e |] w1]; simpl in *.
  - destruct (Hk a w1) as (tr' & Hc' & Hf').
    exists (tr ++ tr'), done, rest.
    rewrite Hc', Hc, app_assoc, filter_app, Hf, Hf', app_nil_r. auto.
  - exists tr, done, rest. auto.
  - exists tr, done, rest. auto.
Qed.

(** The body of the loop either returns having added the rows of its
    constraint, or throws having added none. *)
Lemma add_constraint_any E cstr w :
  (exists k, add_constraint E cstr w
             = (Val tt, extend w (prescribed_rows cstr) k)) \/
  (exists e k, add_constraint E cstr w = (Exc e, extend w [] k)).
Proof.
  destruct (add_constraint E cstr w) as [[[] | e |] w'] eqn:H.
  - left. apply add_constraint_Val in H. subst w'. eexists. reflexivity.
  - right. exists e. unfold add_constraint in H.
    apply bind_Exc_inv in H. destruct H as [H | ([colno sparserow] & w1 & _ & H)].
    + match type of H with
      | ?fold w = _ =>
          assert (Hemits : emits (fun _ : lp_lib.call => False) fold)
      end.
      { apply emits_fold_each. intros [colno sparserow] [var_idx coeff].
        apply emits_bind; [apply emits_push_back |].
        intros colno'. apply emits_bind; [apply emits_push_back |].
        intros sparserow'. apply emits_ret. }
      destruct (Hemits w) as (tr & k & Hw & Htr).
      rewrite H in Hw. simpl in Hw. subst w'.
      destruct tr as [| c tr]; [| inversion Htr; contradiction].
      exists k. reflexivity.
    + destruct (Constraint.bound_type cstr);
        unfold bind in H; rewrite ?call_extend in H; discriminate.
  - destruct (defined_add_constraint E cstr w). rewrite H. reflexivity.
Qed.

Lemma filter_is_row_one cstr :
  filter is_row (prescribed_rows cstr) = prescribed_rows cstr.
Proof.
  unfold prescribed_rows. destruct (Constraint.bound_type cstr); reflexivity.
Qed.

Lemma rows_prefix_for_each E cstrs :
  rows_prefix cstrs (for_each cstrs (add_constraint E)).
Proof.
  induction cstrs as [| c cstrs IH]; intros w; simpl.
  - exists [], [], []. simpl. rewrite app_nil_r. auto.
  - unfold bind.
    destruct (add_constraint_any E c w) as [(k & ->) | (e & k & ->)].
    + destruct (IH (extend w (prescribed_rows c) k))
        as (tr & done & rest & Hc & Hcs & Hf).
      exists (prescribed_rows c ++ tr), (c :: done), rest.
      rewrite Hc. simpl. rewrite app_assoc, filter_app, filter_is_row_one, Hf, Hcs.
      auto.
    + exists [], [], (c :: cstrs). auto.
Qed.

Lemma rows_prefix_add_constraints E lp cstrs :
  rows_prefix cstrs (add_constraints E lp cstrs).
Proof.
  unfold add_constraints, get_Ncolumns.
  apply rows_prefix_bind_l.
  { apply rowless_bind; [apply rowless_call; reflexivity |].
    intros _. apply rowless_ret. }
  intros ncols. apply rows_prefix_bind_l; [apply rowless_call; reflexivity |].
  intros _. apply rows_prefix_bind_l; [apply rowless_call; reflexivity |].
  intros _. apply rows_prefix_bind_r; [apply rows_prefix_for_each |].
  intros _. apply rowless_call. reflexivity.
Qed.

Lemma rows_prefix_populate E program lp :
  rows_prefix (constraints program) (populate E program lp).
Proof.
  unfold populate.
  apply rows_prefix_bind_l; [apply rowless_call; reflexivity |].
  intros _. apply rows_prefix_bind_l; [apply rowless_create_variables |].
  intros _. apply rows_prefix_bind_l; [apply rowless_set_objective |].
  intros _. apply rows_prefix_bind_r; [apply rows_prefix_add_constraints |].
  intros _. unfold solve.
  apply rowless_bind; [apply rowless_call; reflexivity |].
  intros _. apply rowless_ret.
Qed.

Lemma rows_prefix_try_block E program :
  rows_prefix (constraints program) (try_block E program).
Proof.
  intros w.
  destruct (variables program) as [| v vs] eqn:Hv.
  { rewrite try_block_empty by assumption.
    exists [], [], (constraints program). simpl. rewrite app_nil_r. auto. }
  assert (Hvars : variables program <> []) by (rewrite Hv; discriminate).
  clear Hv.
  destruct (make_lp_null E) eqn:Hnull.
  { rewrite try_block_null by assumption.
    exists [lp_lib.make_lp 0 (to_int (size (variables program)))], [],
      (constraints program). auto. }
  rewrite try_block_created by assumption.
  set (w0 := extend w _ 0).
  assert (Hrest : rows_prefix (constraints program)
                    (ret_code <- populate E program (handle program) ;;
                     report E (handle program) (variables program) ret_code ;;;
                     call lp_lib.delete_lp ;;;
                     ret (@None bool))).
  { apply rows_prefix_bind_r; [apply rows_prefix_populate |].
    intros code. apply rowless_bind; [apply rowless_report |].
    intros _. apply rowless_bind; [apply rowless_call; reflexivity |].
    intros _. apply rowless_ret. }
  destruct (Hrest w0) as (tr & done & rest & Hc & Hcs & Hf).
  exists (lp_lib.make_lp 0 (to_int (size (variables program))) :: tr), done, rest.
  rewrite Hc. unfold w0. simpl. rewrite <- app_assoc. auto.
Qed.

(** Whatever the outcome of the call, the rows it has added are the rows
    prescribed for the first constraints of the program, in order. *)
Lemma rows_prefix_solve E program :
  rows_prefix (constraints program) (_solve_LPSOLVE E program).
Proof.
  unfold _solve_LPSOLVE. apply rows_prefix_bind_r.
  - intros w.
    destruct (rows_prefix_try_block E program w)
      as (tr & done & rest & Hc & Hcs & Hf).
    unfold try_catch. destruct (try_block E program w) as [[a | e |] w1];
      simpl in *.
    + exists tr, done, rest. auto.
    + destruct e; simpl; exists tr, done, rest; rewrite Hc; auto.
    + exists tr, done, rest. auto.
  - intros [b |]; apply rowless_ret.
Qed.

(** Every row added by a call that returns, whether it reached the solve
    or was cut short by an exception: when every key of every constraint
    is a variable index and the number [n] of variables fits an [int],
    every column number of the row lies between 1 and [n], so the rows
    name columns of the problem only. *)
Theorem rows_name_columns_of_the_problem E program r b w' :
  _solve_LPSOLVE E program (initial r) = (Val b, w') ->
  size (variables program) <= INT_MAX ->
  Forall (fun cstr => Forall (fun k => 0 <= k < size (variables program))
                        (keys (Constraint.coefficients cstr)))
    (constraints program) ->
  Forall (columns_within (size (variables program))) (filter is_row (calls w')).
Proof.
  intros Hsolve Hn Hkeys.
  destruct (rows_prefix_solve E program (initial r))
    as (tr & done & rest & Hc & Hcs & Hf).
  rewrite Hsolve in Hc. simpl in Hc. rewrite Hc, Hf.
  rewrite Hcs in Hkeys. apply Forall_app in Hkeys.
  apply columns_within_prescribed_rows; [| apply Hkeys].
  unfold size in *. lia.
Qed.

Lemma rows_name_columns_of_the_problem_witness :
  Forall (columns_within 2)
    [lp_lib.add_constraintex 2 [1%R; 2%R] [1; 2] lp_lib.GE 1%R].
Proof.
  apply (rows_name_columns_of_the_problem (engine_out_of_memory 0 1%R 6)
           (two_variable_program Constraint.LOWER) [] false
           (snd (_solve_LPSOLVE (engine_out_of_memory 0 1%R 6)
                   (two_variable_program Constraint.LOWER) (initial [])))).
  - vm_compute. reflexivity.
  - vm_compute. intros H. discriminate H.
  - repeat constructor; simpl; lia.
Defined.

(** The interrupted run of the witness above: the second constraint is cut
    short by the failing allocation, and the one row added is the row of
    the first. *)
Lemma interrupted_run_rows :
  filter is_row
    (calls (snd (_solve_LPSOLVE (engine_out_of_memory 0 1%R 6)
                   (two_variable_program Constraint.LOWER) (initial []))))
  = [lp_lib.add_constraintex 2 [1%R; 2%R] [1; 2] lp_lib.GE 1%R].
Proof. vm_compute. reflexivity. Qed.

Lemma length_prescribed_rows cstrs :
  (length (flat_map prescribed_rows cstrs) + length (filter is_OTHER cstrs)
   = length cstrs + length (filter is_DOUBLE cstrs))%nat.
Proof.
  induction cstrs as [| c cstrs IH]; simpl.
  - reflexivity.
  - rewrite length_app.
    assert (H : (length (prescribed_rows c) + (if is_OTHER c then 1 else 0)
                 = 1 + (if is_DOUBLE c then 1 else 0))%nat).
    { unfold prescribed_rows, is_OTHER, is_DOUBLE.
      destruct (Constraint.bound_type c); reflexivity. }
    destruct (is_OTHER c), (is_DOUBLE c); simpl in *; lia.
Qed.

(** Rows reserved and rows added (lines 62 and 80-100), for a program
    with at least one variable whose objective subscripts stay within the
    objective row, a library that creates the handle, and a run in which
    no vector operation fails.  The [try] block runs to its end;
    [resize_lp] has reserved one row per constraint of the program, while
    the loop has added one row per constraint, one more for each DOUBLE
    constraint and none for each constraint of a kind the [switch] does
    not name. *)
Theorem rows_reserved_and_rows_added E program r :
  (forall k, throws E k = None) ->
  variables program <> [] ->
  make_lp_null E = false ->
  Forall (fun e => (subscript e <= length (variables program))%nat)
    (coefficients (objective program)) ->
  exists w',
    try_block E program (initial r) = (Val None, w') /\
    In (lp_lib.resize_lp (to_int (size (constraints program)))
          (to_int (size (variables program)))) (calls w') /\
    (length (filter is_row (calls w'))
     + length (filter is_OTHER (constraints program))
     = length (constraints program)
       + length (filter is_DOUBLE (constraints program)))%nat.
Proof.
  intros Hfault Hvars Hnull Hin.
  destruct (try_block_fault_free E Hfault program (initial r) Hvars Hnull Hin)
    as (w' & Hrun).
  exists w'. split; [exact Hrun |]. split.
  - apply completed_run in Hrun. destruct Hrun as (row & _ & -> & _).
    apply in_or_app. left. unfold translation. simpl.
    right. right. apply in_or_app. right. simpl. auto.
  - rewrite (completed_run_rows E program r w' Hrun).
    apply length_prescribed_rows.
Qed.

Lemma rows_reserved_and_rows_added_witness :
  exists w',
    try_block (engine 0 0%R) all_kinds_program (initial []) = (Val None, w') /\
    In (lp_lib.resize_lp 4 2) (calls w') /\
    (length (filter is_row (calls w')) + 0 = 4 + 1)%nat.
Proof.
  apply (rows_reserved_and_rows_added (engine 0 0%R) all_kinds_program []).
  - reflexivity.
  - discriminate.
  - reflexivity.
  - repeat constructor.
Defined.
